(** * Pattern similarity pre-computation: a model of
      [scripts/compute_similarities.py]

    The script fetches every pattern embedding from a REST endpoint,
    normalises the vectors, computes the upper triangle of the cosine
    similarity matrix block by block, and posts the pairs at or above a
    threshold to the [pattern_similarities] table in batches.

    The file has three parts: the script as Rocq definitions, function by
    function; the vocabulary the statements use (what the loops are expected
    to send, traces, sample inputs); then the facts, ending with the
    properties of the specification, each marked with its claim number.

    Conventions of the model.
    - numpy scalars are exact real numbers ([R]); binary rounding of the
      float32 arithmetic is outside the model.
    - HTTP calls are answered by a [World]: a scripted server.  Every request
      and every printed line is recorded, in order, in the [trace] of the
      state, so that "what was sent to the store" is a function of the run.
    - Python exceptions are the [Raised] outcome of a small state-and-error
      monad; the local variables [pairs_to_insert] and [total_pairs_found]
      of [compute_and_store_similarities] are fields of the state.
    - the [while True] loop of [get_all_embeddings] takes fuel; a run that
      exhausts it ends in [OutOfFuel], which is not a Python outcome.
    - elapsed times are left out of the printed lines. *)

From Stdlib Require Import List Arith ZArith Lia Bool Permutation.
From Stdlib Require String.
From Stdlib Require Import Reals Lra R_Ifp.
Import ListNotations.

Set Implicit Arguments.

(** ** Scalars and vectors *)

Module Vec.

Local Open Scope R_scope.

Definition vector := list R.
Definition matrix := list vector.

(** [sum] of a vector, as numpy reduces along the last axis. *)
Definition vsum (v : vector) : R := fold_right Rplus 0 v.

(** [np.linalg.norm(embeddings, axis=1, keepdims=True)], one row. *)
Definition linalg_norm (v : vector) : R := sqrt (vsum (map (fun x => x * x) v)).

(** [np.where(norms == 0, 1, norms)], one entry. *)
Definition where_zero_one (x : R) : R := if Req_dec_T x 0 then 1 else x.

(** Inner product of two rows, the entry of [np.dot(a, b.T)]. *)
Definition dot (u v : vector) : R :=
  vsum (map (fun p => fst p * snd p) (combine u v)).

(** [np.dot(chunk_embeddings, compare_embeddings.T)]. *)
Definition np_dot_T (a b : matrix) : matrix :=
  map (fun u => map (fun v => dot u v) b) a.

(** [normalize_embeddings], lines 100-105. *)
Definition normalize_embeddings (embeddings : matrix) : matrix :=
  let norms := map linalg_norm embeddings in
  let norms := map where_zero_one norms in
  map (fun p => map (fun x => x / snd p) (fst p)) (combine embeddings norms).

(** Python's [round(x)] to an integer: ties go to the even neighbour. *)
Definition round_half_even (x : R) : Z :=
  let f := Int_part x in
  let r := x - IZR f in
  if Rlt_dec r (1 / 2) then f
  else if Rlt_dec (1 / 2) r then (f + 1)%Z
  else if Z.even f then f else (f + 1)%Z.

(** Python's [round(x, ndigits)] on exact reals. *)
Definition py_round (x : R) (ndigits : nat) : R :=
  IZR (round_half_even (x * 10 ^ ndigits)) / 10 ^ ndigits.

End Vec.
Export Vec.

(** ** Python list helpers *)

(** [l[a:b]] for [0 <= a], [0 <= b]. *)
Definition slice {A} (l : list A) (a b : nat) : list A :=
  firstn (b - a) (skipn a l).

(** [range(a, b)]. *)
Definition range (a b : nat) : list nat := seq a (b - a).

(** [enumerate(l)]. *)
Definition enumerate {A} (l : list A) : list (nat * A) :=
  combine (seq 0 (length l)) l.

(** [range(start, stop, step)] for a positive step; [fuel] bounds the
    number of elements. *)
Fixpoint range_from (fuel cur stop step : nat) : list nat :=
  match fuel with
  | O => []
  | S fuel' =>
      if cur <? stop then cur :: range_from fuel' (cur + step) stop step
      else []
  end.

Definition range_step (start stop step : nat) : list nat :=
  range_from (stop - start) start stop step.

(** ** The data exchanged with the REST service *)

(** A row of [pattern_similarities] as the script posts it. *)
Record Pair := mkPair {
  pattern_id_1 : Z;
  pattern_id_2 : Z;
  similarity : R
}.

(** The [embedding] column arrives either as a JSON array or as a string
    holding one; [EmbStr d] carries what [json.loads] makes of the string,
    [None] when it raises. *)
Inductive raw_embedding :=
| EmbList (v : vector)
| EmbStr (decoded : option vector).

Record pattern_row := mkRow {
  row_id : Z;
  row_embedding : raw_embedding
}.

(** Body of a response to [GET /rest/v1/patterns]: text that is not JSON, or
    a JSON list of rows, which is what the REST service sends with a success
    status.  Other JSON values are not modelled. *)
Inductive page_body :=
| NotJson
| Rows (batch : list pattern_row).

(** What [requests.get/delete/post] gives back: the transport fails (the
    call raises), or the server replies with a status code. *)
Inductive response (B : Type) :=
| Unreachable
| Reply (status_code : Z) (body : B).
Arguments Unreachable {B}.

(** Module constants, lines 36-41. *)
Record Config := mkConfig {
  MIN_SIMILARITY_THRESHOLD : R;
  FETCH_BATCH_SIZE : nat;
  CHUNK_SIZE : nat;
  INSERT_BATCH_SIZE : nat
}.

Definition source_config : Config :=
  mkConfig (85 / 100)%R 1000 500 100.

(** The environment of a run: the service key and the scripted server.
    [patterns_get] answers by [offset]; [similarities_post k batch] answers
    the [k]-th POST of the run. *)
Record World := mkWorld {
  SUPABASE_SERVICE_KEY : option String.string;
  patterns_get : nat -> response page_body;
  similarities_delete : response unit;
  similarities_post : nat -> list Pair -> response unit
}.

(** ** Effects *)

Inductive exn :=
| ConnectionError
| HTTPError (status : Z)
| JSONDecodeError
| ValueError
| IndexError
| SystemExit (code : Z).

Inductive message :=
| MsgKeyRequired
| MsgBanner
| MsgFetching
| MsgFetched (offset : nat)
| MsgTotalPatterns (n : nat)
| MsgNoEmbeddings
| MsgClearing
| MsgWarnClear (status : Z)
| MsgWarnInsert (status : Z)
| MsgNoPatterns
| MsgComputing (n comparisons : nat)
| MsgNormalizing
| MsgProgress (chunk_end n found : nat)
| MsgComplete
| MsgTotalFound (found : nat)
| MsgDone.

Inductive event :=
| Print (m : message)
| Get (offset : nat)
| Delete
| Post (batch : list Pair).

Record St := mkSt {
  trace : list event;
  pairs_to_insert : list Pair;
  total_pairs_found : nat
}.

Definition initial : St := mkSt [] [] 0.

Inductive res (A : Type) :=
| Returned (a : A)
| Raised (e : exn)
| OutOfFuel.
Arguments Raised {A}.
Arguments OutOfFuel {A}.

Definition M (A : Type) : Type := World -> St -> res A * St.

Definition ret {A} (a : A) : M A := fun _ s => (Returned a, s).

Definition bind {A B} (m : M A) (k : A -> M B) : M B :=
  fun w s =>
    match m w s with
    | (Returned a, s') => k a w s'
    | (Raised e, s') => (Raised e, s')
    | (OutOfFuel, s') => (OutOfFuel, s')
    end.

Definition raise {A} (e : exn) : M A := fun _ s => (Raised e, s).

Definition out_of_fuel {A} : M A := fun _ s => (OutOfFuel, s).

Declare Scope monad_scope.
Delimit Scope monad_scope with monad.
Notation "x <- m ;; k" := (bind m (fun x => k))
  (at level 61, m at next level, right associativity) : monad_scope.
Notation "m ;; k" := (bind m (fun _ => k))
  (at level 61, right associativity) : monad_scope.
Local Open Scope monad_scope.

Definition emit (e : event) : M unit :=
  fun _ s => (Returned tt,
              mkSt (trace s ++ [e]) (pairs_to_insert s) (total_pairs_found s)).

Definition print (m : message) : M unit := emit (Print m).

Definition ask : M World := fun w s => (Returned w, s).

Definition get_state : M St := fun _ s => (Returned s, s).

Definition set_pairs_to_insert (l : list Pair) : M unit :=
  fun _ s => (Returned tt, mkSt (trace s) l (total_pairs_found s)).

Definition set_total_pairs_found (n : nat) : M unit :=
  fun _ s => (Returned tt, mkSt (trace s) (pairs_to_insert s) n).

(** [for x in l: body(x)]. *)
Fixpoint for_ {A} (l : list A) (body : A -> M unit) : M unit :=
  match l with
  | [] => ret tt
  | x :: l' => body x ;; for_ l' body
  end.

(** [l[i]], raising [IndexError] out of range. *)
Definition index {A} (l : list A) (i : nat) : M A :=
  match nth_error l i with
  | Some a => ret a
  | None => raise IndexError
  end.

(** [range(start, stop, step)]; Python raises [ValueError] on a zero step. *)
Definition py_range (start stop step : nat) : M (list nat) :=
  if step =? 0 then raise ValueError else ret (range_step start stop step).

(** The batches posted so far, oldest first. *)
Fixpoint posted (t : list event) : list (list Pair) :=
  match t with
  | [] => []
  | Post b :: t' => b :: posted t'
  | _ :: t' => posted t'
  end.

(** Requests that change the store. *)
Definition is_mutation (e : event) : bool :=
  match e with
  | Delete | Post _ => true
  | _ => false
  end.

Definition mutations (t : list event) : list event := filter is_mutation t.

(** ** The script *)

Section Script.

Variable cfg : Config.

(** [requests.get(.../rest/v1/patterns, params={..., "offset": offset})]. *)
Definition requests_get (offset : nat) : M (Z * page_body) :=
  emit (Get offset) ;;
  w <- ask ;;
  match patterns_get w offset with
  | Unreachable => raise ConnectionError
  | Reply status body => ret (status, body)
  end.

(** [response.raise_for_status()]. *)
Definition raise_for_status (status : Z) : M unit :=
  if ((400 <=? status) && (status <? 600))%Z then raise (HTTPError status)
  else ret tt.

(** [response.json()]. *)
Definition response_json (body : page_body) : M (list pattern_row) :=
  match body with
  | NotJson => raise JSONDecodeError
  | Rows batch => ret batch
  end.

(** The [while True] loop of lines 57-77. *)
Fixpoint fetch_loop (fuel : nat) (all_patterns : list pattern_row)
    (offset : nat) : M (list pattern_row) :=
  match fuel with
  | O => out_of_fuel
  | S fuel' =>
      r <- requests_get offset ;;
      raise_for_status (fst r) ;;
      batch <- response_json (snd r) ;;
      match batch with
      | [] => ret all_patterns
      | _ :: _ =>
          let offset := offset + length batch in
          print (MsgFetched offset) ;;
          fetch_loop fuel' (all_patterns ++ batch) offset
      end
  end.

(** [parse_embedding], lines 88-93. *)
Definition parse_embedding (emb : raw_embedding) : M vector :=
  match emb with
  | EmbList v => ret v
  | EmbStr (Some v) => ret v
  | EmbStr None => raise JSONDecodeError
  end.

Fixpoint mapM {A B} (f : A -> M B) (l : list A) : M (list B) :=
  match l with
  | [] => ret []
  | x :: l' => y <- f x ;; ys <- mapM f l' ;; ret (y :: ys)
  end.

(** [np.array(rows, dtype=np.float32)]: rows of unequal length raise. *)
Definition np_array (rows : list vector) : M matrix :=
  match rows with
  | [] => ret []
  | r :: rs =>
      if forallb (fun r' => length r' =? length r) rs then ret rows
      else raise ValueError
  end.

(** [get_all_embeddings], lines 44-97. *)
Definition get_all_embeddings (fuel : nat) : M (list Z * matrix) :=
  print MsgFetching ;;
  all_patterns <- fetch_loop fuel [] 0 ;;
  print (MsgTotalPatterns (length all_patterns)) ;;
  match all_patterns with
  | [] => ret ([], [])
  | _ :: _ =>
      let pattern_ids := map row_id all_patterns in
      rows <- mapM (fun p => parse_embedding (row_embedding p)) all_patterns ;;
      embeddings <- np_array rows ;;
      ret (pattern_ids, embeddings)
  end.

(** [clear_similarities_table], lines 108-125. *)
Definition clear_similarities_table : M unit :=
  emit Delete ;;
  w <- ask ;;
  match similarities_delete w with
  | Unreachable => raise ConnectionError
  | Reply status _ =>
      if ((status =? 200) || (status =? 204) || (status =? 404))%Z then ret tt
      else print (MsgWarnClear status)
  end.

(** [insert_similarities], lines 128-147. *)
Definition insert_similarities (pairs : list Pair) : M unit :=
  match pairs with
  | [] => ret tt
  | _ :: _ =>
      s <- get_state ;;
      let k := length (posted (trace s)) in
      emit (Post pairs) ;;
      w <- ask ;;
      match similarities_post w k pairs with
      | Unreachable => raise ConnectionError
      | Reply status _ =>
          if ((status =? 200) || (status =? 201))%Z then ret tt
          else print (MsgWarnInsert status)
      end
  end.

(** [similarities[ci, cj]]. *)
Definition index2 (m : matrix) (ci cj : nat) : M R :=
  row <- index m ci ;; index row cj.

(** Lines 197-212: canonical order, append, count, flush a full buffer. *)
Definition store_pair (id1 id2 : Z) (sim : R) : M unit :=
  let ids := if (id1 >? id2)%Z then (id2, id1) else (id1, id2) in
  s <- get_state ;;
  set_pairs_to_insert
    (pairs_to_insert s ++ [mkPair (fst ids) (snd ids) (py_round sim 6)]) ;;
  s <- get_state ;;
  set_total_pairs_found (total_pairs_found s + 1) ;;
  s <- get_state ;;
  if INSERT_BATCH_SIZE cfg <=? length (pairs_to_insert s) then
    insert_similarities (pairs_to_insert s) ;;
    set_pairs_to_insert []
  else ret tt.

(** Lines 190-212: the body of the innermost loop. *)
Definition cell (pattern_ids : list Z) (similarities : matrix)
    (ci chunk_idx cj compare_idx : nat) : M unit :=
  if compare_idx <=? chunk_idx then ret tt
  else
    sim <- index2 similarities ci cj ;;
    if Rge_dec sim (MIN_SIMILARITY_THRESHOLD cfg) then
      id1 <- index pattern_ids chunk_idx ;;
      id2 <- index pattern_ids compare_idx ;;
      store_pair id1 id2 sim
    else ret tt.

(** Lines 178-212: one block of the similarity matrix. *)
Definition block (pattern_ids : list Z) (normalized : matrix) (n i chunk_end : nat)
    (chunk_embeddings : matrix) (j : nat) : M unit :=
  let j_start := max j i in
  let j_end := min (j + CHUNK_SIZE cfg) n in
  let compare_embeddings := slice normalized j_start j_end in
  let similarities := np_dot_T chunk_embeddings compare_embeddings in
  for_ (enumerate (range i chunk_end)) (fun r =>
    for_ (enumerate (range j_start j_end)) (fun c =>
      cell pattern_ids similarities (fst r) (snd r) (fst c) (snd c))).

(** Lines 172-217: one row of blocks, then the progress line. *)
Definition chunk (pattern_ids : list Z) (normalized : matrix) (n i : nat) : M unit :=
  let chunk_end := min (i + CHUNK_SIZE cfg) n in
  let chunk_embeddings := slice normalized i chunk_end in
  js <- py_range i n (CHUNK_SIZE cfg) ;;
  for_ js (block pattern_ids normalized n i chunk_end chunk_embeddings) ;;
  s <- get_state ;;
  print (MsgProgress chunk_end n (total_pairs_found s)).

(** [compute_and_store_similarities], lines 150-226. *)
Definition compute_and_store_similarities (pattern_ids : list Z)
    (embeddings : matrix) : M unit :=
  let n := length pattern_ids in
  if n =? 0 then print MsgNoPatterns
  else
    print (MsgComputing n (n * (n - 1) / 2)) ;;
    print MsgNormalizing ;;
    let normalized := normalize_embeddings embeddings in
    set_total_pairs_found 0 ;;
    set_pairs_to_insert [] ;;
    starts <- py_range 0 n (CHUNK_SIZE cfg) ;;
    for_ starts (chunk pattern_ids normalized n) ;;
    s <- get_state ;;
    match pairs_to_insert s with
    | [] => ret tt
    | _ :: _ => insert_similarities (pairs_to_insert s)
    end ;;
    print MsgComplete ;;
    s <- get_state ;;
    print (MsgTotalFound (total_pairs_found s)).

(** [if not SUPABASE_SERVICE_KEY]. *)
Definition key_missing (w : World) : bool :=
  match SUPABASE_SERVICE_KEY w with
  | None => true
  | Some k => Nat.eqb (String.length k) 0
  end.

(** [main], lines 229-252. *)
Definition main (fuel : nat) : M unit :=
  w <- ask ;;
  if key_missing w then
    print MsgKeyRequired ;;
    raise (SystemExit 1)
  else
    print MsgBanner ;;
    r <- get_all_embeddings fuel ;;
    let pattern_ids := fst r in
    let embeddings := snd r in
    if length pattern_ids =? 0 then print MsgNoEmbeddings
    else
      print MsgClearing ;;
      clear_similarities_table ;;
      compute_and_store_similarities pattern_ids embeddings ;;
      print MsgDone.

End Script.

(** ** Vocabulary of the statements *)

(** *** What the loops are expected to send *)

(** The pair stored for records [id1], [id2] with similarity [sim]. *)
Definition canonical (id1 id2 : Z) (sim : R) : Pair :=
  mkPair (Z.min id1 id2) (Z.max id1 id2) (py_round sim 6).

(** Similarity of rows [i] and [j] of a normalized matrix: their inner
    product. *)
Definition sim_at (normalized : matrix) (i j : nat) : R :=
  dot (nth i normalized []) (nth j normalized []).

(** Cosine similarity of records [i] and [j] of an embedding set. *)
Definition cosine (embeddings : matrix) (i j : nat) : R :=
  sim_at (normalize_embeddings embeddings) i j.

(** A row as [normalize_embeddings] leaves it. *)
Definition unit_row (v : vector) : vector :=
  map (fun x => (x / where_zero_one (linalg_norm v))%R) v.

(** What index pair [(i, j)] contributes to the store: the canonical pair
    when [i < j] and the similarity reaches the threshold, nothing
    otherwise. *)
Definition qualifying (cfg : Config) (pattern_ids : list Z)
    (normalized : matrix) (i j : nat) : list Pair :=
  if i <? j then
    if Rge_dec (sim_at normalized i j) (MIN_SIMILARITY_THRESHOLD cfg) then
      [canonical (nth i pattern_ids 0%Z) (nth j pattern_ids 0%Z)
                 (sim_at normalized i j)]
    else []
  else [].

(** Pairs found in the block of rows [[i, chunk_end)] and the columns started
    at [j], in visiting order. *)
Definition block_out (cfg : Config) (pattern_ids : list Z)
    (normalized : matrix) (i chunk_end j : nat) : list Pair :=
  flat_map (fun r =>
    flat_map (fun c => qualifying cfg pattern_ids normalized r c)
             (range (max j i)
                    (min (j + CHUNK_SIZE cfg) (length pattern_ids))))
    (range i chunk_end).

(** Pairs found while processing the row of blocks that starts at [i]. *)
Definition chunk_out (cfg : Config) (pattern_ids : list Z)
    (normalized : matrix) (i : nat) : list Pair :=
  flat_map (block_out cfg pattern_ids normalized i
              (min (i + CHUNK_SIZE cfg) (length pattern_ids)))
           (range_step i (length pattern_ids) (CHUNK_SIZE cfg)).

(** Everything the block loops find, in the order they find it. *)
Definition chunked_pairs (cfg : Config) (pattern_ids : list Z)
    (normalized : matrix) : list Pair :=
  flat_map (chunk_out cfg pattern_ids normalized)
           (range_step 0 (length pattern_ids) (CHUNK_SIZE cfg)).

(** The pairs found by a scan of all index pairs, row by row. *)
Definition scan_pairs (cfg : Config) (pattern_ids : list Z)
    (normalized : matrix) : list Pair :=
  flat_map (fun i => flat_map (qualifying cfg pattern_ids normalized i)
                              (range 0 (length pattern_ids)))
           (range 0 (length pattern_ids)).

(** Follows the specification (section 4.2): the full dense similarity
    matrix of the normalized vectors. *)
Definition dense_similarity_matrix (normalized : matrix) : matrix :=
  np_dot_T normalized normalized.

(** Follows the specification: the entries of the dense matrix with index
    [i < j] that pass the threshold, each as its canonical pair. *)
Definition dense_pairs (threshold : R) (pattern_ids : list Z)
    (normalized : matrix) : list Pair :=
  let n := length pattern_ids in
  let full := dense_similarity_matrix normalized in
  flat_map (fun i =>
    flat_map (fun j =>
      if i <? j then
        let s := nth j (nth i full []) 0%R in
        if Rge_dec s threshold then
          [canonical (nth i pattern_ids 0%Z) (nth j pattern_ids 0%Z) s]
        else []
      else [])
      (range 0 n))
    (range 0 n).

(** *** States, traces and worlds *)

(** The final flush of lines 219-221 as a list of batches. *)
Definition remainder (rest : list Pair) : list (list Pair) :=
  match rest with
  | [] => []
  | _ :: _ => [rest]
  end.

(** [advance cfg s s' out]: between [s] and [s'] the pairs [out] were
    appended to the buffer, in order; full buffers were posted, each of
    exactly [INSERT_BATCH_SIZE] pairs; nothing else reached the store. *)
Definition advance (cfg : Config) (s s' : St) (out : list Pair) : Prop :=
  exists t,
    trace s' = trace s ++ t /\
    mutations t = map Post (posted t) /\
    Forall (fun b => length b = INSERT_BATCH_SIZE cfg) (posted t) /\
    concat (posted t) ++ pairs_to_insert s' = pairs_to_insert s ++ out /\
    length (pairs_to_insert s') < INSERT_BATCH_SIZE cfg /\
    total_pairs_found s' = total_pairs_found s + length out.

(** [emits cfg w m out]: from any state whose buffer is not full, [m]
    returns and advances the state by [out]. *)
Definition emits (cfg : Config) (w : World) (m : M unit) (out : list Pair)
    : Prop :=
  forall s, length (pairs_to_insert s) < INSERT_BATCH_SIZE cfg ->
    exists s', m w s = (Returned tt, s') /\ advance cfg s s' out.

(** The store answers every POST with some status (the call does not
    raise). *)
Definition store_reachable (w : World) : Prop :=
  forall k b, similarities_post w k b <> Unreachable.

(** [quiet m]: whatever its outcome, [m] sends no request that changes the
    store. *)
Definition quiet {A} (m : M A) : Prop :=
  forall w s r s', m w s = (r, s') ->
    mutations (trace s') = mutations (trace s).

(** The part of [main] that runs before the store is touched: the banner
    and the fetch. *)
Definition fetch_phase (fuel : nat) : M (list Z * matrix) :=
  print MsgBanner ;; get_all_embeddings fuel.

(** What [clear_similarities_table] prints after a reply. *)
Definition clear_warning (status : Z) : list event :=
  if ((status =? 200) || (status =? 204) || (status =? 404))%Z then []
  else [Print (MsgWarnClear status)].

(** What [insert_similarities] prints after a reply. *)
Definition insert_warning (status : Z) : list event :=
  if ((status =? 200) || (status =? 201))%Z then []
  else [Print (MsgWarnInsert status)].

(** The lines printed in a trace. *)
Fixpoint printed (t : list event) : list message :=
  match t with
  | [] => []
  | Print m :: t' => m :: printed t'
  | _ :: t' => printed t'
  end.

(** The end-of-run summary: what is printed from the [=== Complete ===]
    line on. *)
Fixpoint summary (t : list event) : list message :=
  match t with
  | [] => []
  | Print MsgComplete :: t' => MsgComplete :: printed t'
  | _ :: t' => summary t'
  end.

(** The number of pairs the store accepted: the sizes of the batches whose
    POST, the [k]-th of the run, was answered with 200 or 201. *)
Fixpoint stored_from (w : World) (k : nat) (t : list event) : nat :=
  match t with
  | [] => 0
  | Post b :: t' =>
      match similarities_post w k b with
      | Reply status _ =>
          if ((status =? 200) || (status =? 201))%Z then length b else 0
      | Unreachable => 0
      end + stored_from w (S k) t'
  | _ :: t' => stored_from w k t'
  end.

Definition stored (w : World) (t : list event) : nat := stored_from w 0 t.

(** The unique key of a row of [pattern_similarities]. *)
Definition pair_key (p : Pair) : Z * Z := (pattern_id_1 p, pattern_id_2 p).

(** [appends P m]: whatever its outcome, [m] only adds events at the end of
    the trace, and the events it adds satisfy [P]. *)
Definition appends {A} (P : list event -> Prop) (m : M A) : Prop :=
  forall w s r s', m w s = (r, s') ->
    exists t, trace s' = trace s ++ t /\ P t.

(** No request of [t] changes the store. *)
Definition no_mutation (t : list event) : Prop := mutations t = [].

(** The only requests of [t] that change the store are POSTs. *)
Definition only_posts (t : list event) : Prop :=
  exists bs, mutations t = map Post bs.

(** [t] leaves the store alone, or clears it once and then only posts. *)
Definition cleared_then_filled (t : list event) : Prop :=
  mutations t = [] \/ exists bs, mutations t = Delete :: map Post bs.

(** [t] begins with the events [l]. *)
Definition starts_with (l t : list event) : Prop := exists t', t = l ++ t'.

(** A row whose [embedding] column [parse_embedding] can decode. *)
Definition decodable (p : pattern_row) : Prop :=
  row_embedding p <> EmbStr None.

(** The vector the [embedding] column of a row stands for. *)
Definition embedding_of (p : pattern_row) : vector :=
  match row_embedding p with
  | EmbList v => v
  | EmbStr (Some v) => v
  | EmbStr None => []
  end.

(** A source holding [rows] that serves them [limit] at a time, as the REST
    service does for [limit] and [offset]. *)
Definition paged_source (limit : nat) (rows : list pattern_row)
    : nat -> response page_body :=
  fun offset => Reply 200 (Rows (firstn limit (skipn offset rows))).

(** *** Sample inputs *)

Module Sample.
Import String.
Definition service_key : string := "service-key".
End Sample.

(** A store that accepts every request, behind a source serving [pages]. *)
Definition nominal_world (pages : nat -> response page_body) : World :=
  mkWorld (Some Sample.service_key) pages (Reply 204 tt)
          (fun _ _ => Reply 201 tt).

(** A source without records. *)
Definition no_pages : nat -> response page_body := fun _ => Reply 200 (Rows []).

(** A source that cannot be reached. *)
Definition unreachable_source : nat -> response page_body :=
  fun _ => Unreachable.

(** The end-to-end scenario of the specification: A, B identical, C
    orthogonal to them, D the zero vector. *)
Definition scenario_ids : list Z := [10; 11; 12; 13]%Z.

Definition scenario_embeddings : matrix :=
  [[1; 0; 0]; [1; 0; 0]; [0; 1; 0]; [0; 0; 0]]%R.

(** The four records of the scenario as rows of [patterns]. *)
Definition scenario_rows : list pattern_row :=
  [mkRow 10 (EmbList [1; 0; 0]%R); mkRow 11 (EmbList [1; 0; 0]%R);
   mkRow 12 (EmbStr (Some [0; 1; 0]%R)); mkRow 13 (EmbList [0; 0; 0]%R)].

(** The source serving the four records of the scenario in one page. *)
Definition scenario_pages (offset : nat) : response page_body :=
  match offset with
  | O => Reply 200 (Rows [mkRow 10 (EmbList [1; 0; 0]%R);
                          mkRow 11 (EmbList [1; 0; 0]%R);
                          mkRow 12 (EmbStr (Some [0; 1; 0]%R));
                          mkRow 13 (EmbList [0; 0; 0]%R)])
  | S _ => Reply 200 (Rows [])
  end.

(** The scenario's source with a store that answers every DELETE with
    [clear_status] and every POST with [insert_status]. *)
Definition scenario_world (clear_status insert_status : Z) : World :=
  mkWorld (Some Sample.service_key) scenario_pages (Reply clear_status tt)
          (fun _ _ => Reply insert_status tt).

(** The state [main] is in once the scenario's records are fetched. *)
Definition scenario_fetched : St :=
  mkSt [Print MsgBanner; Print MsgFetching; Get 0; Print (MsgFetched 4);
        Get 4; Print (MsgTotalPatterns 4)] [] 0.

(** ** Facts about the list helpers *)

Lemma posted_app (t1 t2 : list event) :
  posted (t1 ++ t2) = posted t1 ++ posted t2.
Proof.
  induction t1 as [|e t1 IH]; simpl; [reflexivity|].
  destruct e; simpl; congruence.
Qed.

Lemma mutations_app (t1 t2 : list event) :
  mutations (t1 ++ t2) = mutations t1 ++ mutations t2.
Proof. apply filter_app. Qed.

Lemma range_from_ge (fuel cur stop step : nat) (x : nat) :
  In x (range_from fuel cur stop step) -> cur <= x /\ x < stop.
Proof.
  revert cur. induction fuel as [|f IH]; simpl; intros cur H; [contradiction|].
  destruct (Nat.ltb_spec cur stop) as [Hlt|Hge]; [|contradiction].
  destruct H as [<-|H]; [lia|]. apply IH in H. lia.
Qed.

Lemma range_step_bounds (start stop step x : nat) :
  In x (range_step start stop step) -> start <= x /\ x < stop.
Proof. apply range_from_ge. Qed.

(** The blocks [[b, min (b + step) stop)] started by [range(cur, stop, step)]
    tile [[cur, stop)]. *)
Lemma range_from_tiles (step : nat) (Hstep : 1 <= step) :
  forall fuel cur stop, stop - cur <= fuel ->
    flat_map (fun b => range b (min (b + step) stop))
             (range_from fuel cur stop step) = range cur stop.
Proof.
  induction fuel as [|f IH]; intros cur stop Hf; simpl.
  - unfold range. replace (stop - cur) with 0 by lia. reflexivity.
  - destruct (Nat.ltb_spec cur stop) as [Hlt|Hge].
    + simpl. rewrite IH by lia. unfold range.
      destruct (Nat.le_ge_cases (cur + step) stop) as [Hle|Hgt].
      * rewrite Nat.min_l by lia.
        replace (stop - cur) with ((cur + step - cur) + (stop - (cur + step))) by lia.
        rewrite seq_app. f_equal. f_equal; lia.
      * rewrite Nat.min_r by lia.
        replace (stop - (cur + step)) with 0 by lia. simpl.
        apply app_nil_r.
    + unfold range. replace (stop - cur) with 0 by lia. reflexivity.
Qed.

Lemma range_step_tiles (start stop step : nat) :
  1 <= step ->
  flat_map (fun b => range b (min (b + step) stop)) (range_step start stop step)
  = range start stop.
Proof. intros H. apply range_from_tiles; [assumption|lia]. Qed.

Lemma in_range (a b x : nat) : In x (range a b) <-> a <= x < b.
Proof. unfold range. rewrite in_seq. lia. Qed.

Lemma in_enumerate_range (a b ci x : nat) :
  In (ci, x) (enumerate (range a b)) -> x = a + ci /\ x < b.
Proof.
  unfold enumerate, range. rewrite length_seq.
  assert (G : forall len s0 s1, In (ci, x) (combine (seq s0 len) (seq s1 len)) ->
            exists k, k < len /\ ci = s0 + k /\ x = s1 + k).
  { clear. induction len as [|len IH]; simpl; intros s0 s1 H; [contradiction|].
    destruct H as [H|H].
    - inversion H; subst. exists 0. lia.
    - apply IH in H. destruct H as (k & ? & ? & ?). exists (S k). lia. }
  intros H. apply G in H. destruct H as (k & Hk & -> & ->). lia.
Qed.

Lemma map_snd_enumerate {A} (l : list A) : map snd (enumerate l) = l.
Proof.
  unfold enumerate. generalize 0.
  induction l as [|x l IH]; intros s; simpl; [reflexivity|]. now rewrite IH.
Qed.

Lemma flat_map_enumerate {A B} (f : A -> list B) (l : list A) :
  flat_map (fun p => f (snd p)) (enumerate l) = flat_map f l.
Proof.
  rewrite <- (map_snd_enumerate l) at 2.
  rewrite flat_map_concat_map, (flat_map_concat_map f), map_map. reflexivity.
Qed.

Lemma flat_map_in_ext {A B} (f g : A -> list B) (l : list A) :
  (forall x, In x l -> f x = g x) -> flat_map f l = flat_map g l.
Proof.
  induction l as [|x l IH]; simpl; intros H; [reflexivity|].
  rewrite H by now left. f_equal. apply IH. intros; apply H; now right.
Qed.

Lemma nth_error_slice {A} (l : list A) (a b k : nat) :
  a + k < b -> nth_error (slice l a b) k = nth_error l (a + k).
Proof.
  intros H. unfold slice.
  rewrite nth_error_firstn.
  destruct (Nat.ltb_spec k (b - a)); [|lia].
  apply nth_error_skipn.
Qed.

(** ** What the block loops send to the store *)

Section Engine.

Variable cfg : Config.
Variable w : World.

Hypothesis batch_pos : 1 <= INSERT_BATCH_SIZE cfg.
Hypothesis reachable : store_reachable w.

Lemma advance_refl (s : St) :
  length (pairs_to_insert s) < INSERT_BATCH_SIZE cfg -> advance cfg s s [].
Proof.
  intros H. exists []. simpl. rewrite !app_nil_r. repeat split; auto.
Qed.

Lemma advance_trans (s1 s2 s3 : St) (o1 o2 : list Pair) :
  advance cfg s1 s2 o1 -> advance cfg s2 s3 o2 -> advance cfg s1 s3 (o1 ++ o2).
Proof.
  intros (t1 & Ht1 & Hm1 & Hf1 & Hc1 & _ & Hn1)
         (t2 & Ht2 & Hm2 & Hf2 & Hc2 & Hb2 & Hn2).
  exists (t1 ++ t2). rewrite posted_app, mutations_app, map_app, concat_app.
  repeat split.
  - rewrite Ht2, Ht1. now rewrite app_assoc.
  - now rewrite Hm1, Hm2.
  - apply Forall_app. now split.
  - rewrite <- app_assoc, Hc2, !app_assoc. now rewrite Hc1.
  - assumption.
  - rewrite Hn2, Hn1, length_app. lia.
Qed.

Lemma advance_buf (s s' : St) (out : list Pair) :
  advance cfg s s' out -> length (pairs_to_insert s') < INSERT_BATCH_SIZE cfg.
Proof. intros (t & _ & _ & _ & _ & H & _). exact H. Qed.

Lemma emits_ret : emits cfg w (ret tt) [].
Proof. intros s Hs. exists s. split; [reflexivity|now apply advance_refl]. Qed.

Lemma emits_print (m : message) : emits cfg w (print m) [].
Proof.
  intros s Hs. eexists. split; [reflexivity|].
  exists [Print m]. simpl. rewrite app_nil_r. repeat split; auto.
Qed.

Lemma emits_seq (m1 m2 : M unit) (o1 o2 : list Pair) :
  emits cfg w m1 o1 -> emits cfg w m2 o2 -> emits cfg w (m1 ;; m2) (o1 ++ o2).
Proof.
  intros H1 H2 s Hs.
  destruct (H1 s Hs) as (s1 & E1 & A1).
  destruct (H2 s1 (advance_buf A1)) as (s2 & E2 & A2).
  exists s2. split; [|eapply advance_trans; eassumption].
  unfold bind. now rewrite E1.
Qed.

Lemma emits_eq (m : M unit) (o1 o2 : list Pair) :
  o1 = o2 -> emits cfg w m o1 -> emits cfg w m o2.
Proof. now intros ->. Qed.

Lemma emits_for {A} (body : A -> M unit) (g : A -> list Pair) (l : list A) :
  (forall x, In x l -> emits cfg w (body x) (g x)) ->
  emits cfg w (for_ l body) (flat_map g l).
Proof.
  induction l as [|x l IH]; simpl; intros H.
  - apply emits_ret.
  - apply emits_seq; [apply H; now left|].
    apply IH. intros y Hy. apply H. now right.
Qed.

Lemma emits_insert (p : Pair) (buf : list Pair) (s : St) :
  exists s',
    insert_similarities (p :: buf) w s = (Returned tt, s') /\
    pairs_to_insert s' = pairs_to_insert s /\
    total_pairs_found s' = total_pairs_found s /\
    exists t, trace s' = trace s ++ t /\ posted t = [p :: buf] /\
              mutations t = [Post (p :: buf)].
Proof.
  unfold insert_similarities, bind, get_state, emit, ask. simpl.
  destruct (similarities_post w (length (posted (trace s))) (p :: buf))
    as [|status body] eqn:E.
  - now apply reachable in E.
  - destruct ((status =? 200) || (status =? 201))%Z.
    + eexists. split; [reflexivity|]. simpl. repeat split.
      exists [Post (p :: buf)]. auto.
    + eexists. split; [reflexivity|]. simpl. repeat split.
      exists [Post (p :: buf); Print (MsgWarnInsert status)].
      rewrite <- app_assoc. auto.
Qed.

Lemma emits_store_pair (id1 id2 : Z) (sim : R) :
  emits cfg w (store_pair cfg id1 id2 sim) [canonical id1 id2 sim].
Proof.
  intros s Hs.
  assert (Hc : mkPair (fst (if (id1 >? id2)%Z then (id2, id1) else (id1, id2)))
                      (snd (if (id1 >? id2)%Z then (id2, id1) else (id1, id2)))
                      (py_round sim 6) = canonical id1 id2 sim).
  { unfold canonical. destruct (Z.gtb_spec id1 id2); simpl; f_equal; lia. }
  unfold store_pair. rewrite Hc.
  unfold bind, get_state, set_pairs_to_insert, set_total_pairs_found. simpl.
  set (buf := pairs_to_insert s ++ [canonical id1 id2 sim]).
  assert (Hlen : length buf = S (length (pairs_to_insert s))).
  { unfold buf. rewrite length_app. simpl. lia. }
  destruct (Nat.leb_spec (INSERT_BATCH_SIZE cfg) (length buf)) as [Hfull|Hroom].
  - destruct buf as [|p buf'] eqn:Ebuf; [simpl in Hlen; lia|].
    destruct (emits_insert p buf'
                (mkSt (trace s) (p :: buf') (total_pairs_found s + 1)))
      as (s1 & E1 & Hb1 & Hn1 & t & Ht & Hp & Hm).
    rewrite E1. eexists. split; [reflexivity|].
    exists t. simpl. rewrite Hp, Hm. simpl in *.
    split; [exact Ht|]. split; [reflexivity|].
    split; [constructor; [simpl; lia|constructor]|].
    split; [rewrite !app_nil_r; symmetry; exact Ebuf|].
    split; [lia|exact Hn1].
  - eexists. split; [reflexivity|].
    exists []. simpl. rewrite app_nil_r. repeat split; auto.
Qed.

Lemma index_in_range {A} (l : list A) (i : nat) (d : A) :
  i < length l -> index l i = ret (nth i l d).
Proof.
  intros H. unfold index. now rewrite (nth_error_nth' l d H).
Qed.

Lemma index2_block (normalized : matrix) (i chunk_end j_start j_end ci cj : nat) :
  i + ci < chunk_end -> chunk_end <= length normalized ->
  j_start + cj < j_end -> j_end <= length normalized ->
  index2 (np_dot_T (slice normalized i chunk_end)
                   (slice normalized j_start j_end)) ci cj
  = ret (sim_at normalized (i + ci) (j_start + cj)).
Proof.
  intros Hi He Hj Hje. unfold index2, index, np_dot_T.
  rewrite nth_error_map, nth_error_slice by assumption.
  rewrite (nth_error_nth' normalized []) by lia. simpl.
  unfold bind, ret. simpl.
  rewrite nth_error_map, nth_error_slice by assumption.
  rewrite (nth_error_nth' normalized []) by lia. reflexivity.
Qed.

Lemma py_range_pos (start stop step : nat) :
  1 <= step -> py_range start stop step = ret (range_step start stop step).
Proof.
  intros H. unfold py_range. destruct (Nat.eqb_spec step 0); [lia|reflexivity].
Qed.

Section Loops.

Variable pattern_ids : list Z.
Variable normalized : matrix.

Let n := length pattern_ids.

Hypothesis rows_match : length normalized = n.

Lemma emits_cell (i chunk_end j_start j_end ci cj : nat) :
  i + ci < chunk_end -> chunk_end <= n ->
  j_start + cj < j_end -> j_end <= n ->
  emits cfg w (cell cfg pattern_ids
              (np_dot_T (slice normalized i chunk_end)
                        (slice normalized j_start j_end))
              ci (i + ci) cj (j_start + cj))
        (qualifying cfg pattern_ids normalized (i + ci) (j_start + cj)).
Proof.
  intros Hi He Hj Hje. unfold cell, qualifying.
  destruct (Nat.leb_spec (j_start + cj) (i + ci)) as [Hle|Hlt].
  - destruct (Nat.ltb_spec (i + ci) (j_start + cj)); [lia|]. apply emits_ret.
  - destruct (Nat.ltb_spec (i + ci) (j_start + cj)); [|lia].
    rewrite index2_block by (rewrite ?rows_match; assumption).
    intros s Hs. unfold bind at 1. unfold ret at 1.
    destruct (Rge_dec (sim_at normalized (i + ci) (j_start + cj))
                      (MIN_SIMILARITY_THRESHOLD cfg)).
    + rewrite (index_in_range pattern_ids 0%Z) by (fold n; lia).
      rewrite (index_in_range pattern_ids 0%Z) by (fold n; lia).
      unfold bind at 1. unfold ret at 1. unfold bind at 1. unfold ret at 1.
      now apply emits_store_pair.
    + now apply emits_ret.
Qed.

Lemma emits_block (i chunk_end j : nat) :
  chunk_end <= n ->
  emits cfg w (block cfg pattern_ids normalized n i chunk_end
               (slice normalized i chunk_end) j)
        (block_out cfg pattern_ids normalized i chunk_end j).
Proof.
  intros He. unfold block, block_out.
  rewrite <- (flat_map_enumerate _ (range i chunk_end)).
  apply emits_for. intros [ci r] Hr. simpl.
  apply in_enumerate_range in Hr. destruct Hr as [-> Hr].
  rewrite <- (flat_map_enumerate _ (range (max j i) _)).
  apply emits_for. intros [cj c] Hc. simpl.
  apply in_enumerate_range in Hc. destruct Hc as [-> Hc].
  apply emits_cell; try assumption. apply Nat.le_min_r.
Qed.

Hypothesis chunk_pos : 1 <= CHUNK_SIZE cfg.

Lemma emits_chunk (i : nat) :
  emits cfg w (chunk cfg pattern_ids normalized n i) (chunk_out cfg pattern_ids normalized i).
Proof.
  unfold chunk, chunk_out. rewrite py_range_pos by exact chunk_pos.
  intros s Hs. unfold bind at 1. unfold ret at 1.
  revert s Hs.
  rewrite <- (app_nil_r (flat_map _ _)).
  apply emits_seq.
  - apply emits_for. intros j _. apply emits_block. apply Nat.le_min_r.
  - intros s Hs. unfold bind at 1. unfold get_state at 1.
    now apply emits_print.
Qed.

Lemma emits_chunks :
  emits cfg w (for_ (range_step 0 n (CHUNK_SIZE cfg))
              (chunk cfg pattern_ids normalized n))
        (chunked_pairs cfg pattern_ids normalized).
Proof. apply emits_for. intros i _. apply emits_chunk. Qed.

End Loops.

Lemma length_normalize_embeddings (embeddings : matrix) :
  length (normalize_embeddings embeddings) = length embeddings.
Proof.
  unfold normalize_embeddings.
  rewrite length_map, length_combine, !length_map. apply Nat.min_id.
Qed.

(** A whole call of [compute_and_store_similarities] on a non-empty input:
    it returns; the batches it posts are full batches followed by the
    remainder; together they hold [chunked_pairs] in order; the last two
    lines printed are the summary. *)
Lemma compute_run (pattern_ids : list Z) (embeddings : matrix) (s0 : St) :
  length embeddings = length pattern_ids ->
  pattern_ids <> [] ->
  1 <= CHUNK_SIZE cfg ->
  let out := chunked_pairs cfg pattern_ids (normalize_embeddings embeddings) in
  exists s' full rest t,
    compute_and_store_similarities cfg pattern_ids embeddings w s0
      = (Returned tt, s') /\
    trace s' = trace s0 ++ t ++
               [Print MsgComplete; Print (MsgTotalFound (length out))] /\
    posted t = full ++ remainder rest /\
    mutations t = map Post (posted t) /\
    Forall (fun b => length b = INSERT_BATCH_SIZE cfg) full /\
    length rest < INSERT_BATCH_SIZE cfg /\
    concat full ++ rest = out /\
    total_pairs_found s' = length out.
Proof.
  intros Hlen Hne Hc out.
  unfold compute_and_store_similarities.
  destruct (Nat.eqb_spec (length pattern_ids) 0) as [E|_].
  { destruct pattern_ids; [congruence|discriminate]. }
  rewrite py_range_pos by assumption.
  set (s1 := mkSt (trace s0 ++ [Print (MsgComputing (length pattern_ids)
                     (length pattern_ids * (length pattern_ids - 1) / 2))]
                   ++ [Print MsgNormalizing]) [] 0).
  assert (Hs1 : length (pairs_to_insert s1) < INSERT_BATCH_SIZE cfg)
    by (simpl; lia).
  destruct (@emits_chunks pattern_ids (normalize_embeddings embeddings)
              (eq_trans (length_normalize_embeddings embeddings) Hlen) Hc s1 Hs1)
    as (s2 & E2 & t2 & Ht2 & Hm2 & Hf2 & Hc2 & Hb2 & Hn2).
  fold out in Hc2, Hn2. simpl in Hc2, Hn2.
  unfold bind at 1. unfold print at 1, emit at 1.
  unfold bind at 1. unfold print at 1, emit at 1. cbn [trace pairs_to_insert total_pairs_found].
  unfold bind at 1. unfold set_total_pairs_found at 1. cbn [trace pairs_to_insert total_pairs_found].
  unfold bind at 1. unfold set_pairs_to_insert at 1. cbn [trace pairs_to_insert total_pairs_found].
  unfold bind at 1. unfold ret at 1.
  rewrite <- app_assoc. fold s1.
  unfold bind at 1. rewrite E2.
  unfold bind at 1. unfold get_state at 1.
  destruct (pairs_to_insert s2) as [|p rest'] eqn:Ebuf.
  - exists (mkSt ((trace s2 ++ [Print MsgComplete])
                  ++ [Print (MsgTotalFound (total_pairs_found s2))]) [] 
                 (total_pairs_found s2)), (posted t2), [],
           ([Print (MsgComputing (length pattern_ids)
                     (length pattern_ids * (length pattern_ids - 1) / 2));
             Print MsgNormalizing] ++ t2).
    split.
    { unfold bind, ret, print, emit, get_state. simpl. now rewrite Ebuf. }
    simpl. rewrite Ht2, Hn2. simpl. rewrite app_nil_r in *.
    rewrite <- !app_assoc. simpl.
    repeat split; rewrite ?app_nil_r; auto.
  - destruct (emits_insert p rest' s2) as (s3 & E3 & Hb3 & Hn3 & t3 & Ht3 & Hp3 & Hm3).
    exists (mkSt ((trace s3 ++ [Print MsgComplete])
                  ++ [Print (MsgTotalFound (total_pairs_found s3))])
                 (pairs_to_insert s3) (total_pairs_found s3)),
           (posted t2), (p :: rest'),
           ([Print (MsgComputing (length pattern_ids)
                     (length pattern_ids * (length pattern_ids - 1) / 2));
             Print MsgNormalizing] ++ t2 ++ t3).
    split.
    { unfold bind at 1. rewrite E3.
      unfold bind, ret, print, emit, get_state. reflexivity. }
    cbn [trace total_pairs_found].
    rewrite Ht3, Ht2, Hn3, Hn2. simpl.
    rewrite !posted_app, !mutations_app, Hp3, Hm3, Hm2, map_app.
    rewrite <- !app_assoc. simpl.
    repeat split; auto.
Qed.

End Engine.

(** ** Chunked enumeration against the dense matrix *)

Lemma flat_map_nil {A B} (l : list A) : flat_map (fun _ : A => @nil B) l = [].
Proof. induction l; simpl; auto. Qed.

Lemma flat_map_nested {A B C} (f : B -> list C) (g : A -> list B) (l : list A) :
  flat_map f (flat_map g l) = flat_map (fun x => flat_map f (g x)) l.
Proof.
  induction l as [|x l IH]; simpl; [reflexivity|].
  now rewrite flat_map_app, IH.
Qed.

Lemma flat_map_split_perm {A B} (g h : A -> list B) (l : list A) :
  Permutation (flat_map (fun y => g y ++ h y) l)
              (flat_map g l ++ flat_map h l).
Proof.
  induction l as [|y l IH]; simpl; [constructor|].
  rewrite IH, <- !app_assoc. apply Permutation_app_head.
  rewrite !app_assoc. apply Permutation_app_tail, Permutation_app_comm.
Qed.

Lemma flat_map_swap_perm {A B C} (f : A -> B -> list C) (xs : list A) (ys : list B) :
  Permutation (flat_map (fun x => flat_map (fun y => f x y) ys) xs)
              (flat_map (fun y => flat_map (fun x => f x y) xs) ys).
Proof.
  induction xs as [|x xs IH]; simpl.
  - now rewrite flat_map_nil.
  - rewrite flat_map_split_perm. now apply Permutation_app_head.
Qed.

Lemma flat_map_pointwise_perm {A B} (f g : A -> list B) (l : list A) :
  (forall x, In x l -> Permutation (f x) (g x)) ->
  Permutation (flat_map f l) (flat_map g l).
Proof.
  induction l as [|x l IH]; simpl; intros H; [constructor|].
  apply Permutation_app; [apply H; now left|].
  apply IH. intros; apply H; now right.
Qed.

Lemma dense_entry (normalized : matrix) (i j : nat) :
  i < length normalized -> j < length normalized ->
  nth j (nth i (dense_similarity_matrix normalized) []) 0%R
  = sim_at normalized i j.
Proof.
  intros Hi Hj. unfold dense_similarity_matrix, np_dot_T, sim_at.
  rewrite (nth_indep _ [] (map (fun v => dot [] v) normalized))
    by (rewrite length_map; exact Hi).
  rewrite (map_nth (fun u => map (fun v => dot u v) normalized) normalized [] i).
  rewrite (nth_indep _ 0%R (dot (nth i normalized []) []))
    by (rewrite length_map; exact Hj).
  apply (map_nth (fun v => dot (nth i normalized []) v)).
Qed.

Lemma dense_pairs_qualifying (cfg : Config) (pattern_ids : list Z)
    (normalized : matrix) :
  length normalized = length pattern_ids ->
  dense_pairs (MIN_SIMILARITY_THRESHOLD cfg) pattern_ids normalized
  = flat_map (fun i => flat_map (qualifying cfg pattern_ids normalized i)
                                (range 0 (length pattern_ids)))
             (range 0 (length pattern_ids)).
Proof.
  intros Hlen. unfold dense_pairs.
  apply flat_map_in_ext. intros i Hi. apply flat_map_in_ext. intros j Hj.
  apply in_range in Hi. apply in_range in Hj.
  unfold qualifying. rewrite dense_entry by lia. reflexivity.
Qed.

Lemma qualifying_left_of (cfg : Config) (pattern_ids : list Z)
    (normalized : matrix) (a r n : nat) :
  a <= r -> a <= n ->
  flat_map (qualifying cfg pattern_ids normalized r) (range a n)
  = flat_map (qualifying cfg pattern_ids normalized r) (range 0 n).
Proof.
  intros Har Han.
  assert (E : range 0 n = range 0 a ++ range a n).
  { unfold range. replace (n - 0) with ((a - 0) + (n - a)) by lia.
    rewrite seq_app. do 2 f_equal. lia. }
  rewrite E, flat_map_app.
  rewrite (flat_map_in_ext (qualifying cfg pattern_ids normalized r)
             (fun _ => []) (range 0 a)).
  - now rewrite flat_map_nil.
  - intros c Hc. apply in_range in Hc. unfold qualifying.
    destruct (Nat.ltb_spec r c); [lia|reflexivity].
Qed.

(** The block loops visit the same qualifying cells as a row-by-row scan of
    the dense matrix, each cell once. *)
Lemma chunked_pairs_dense (cfg : Config) (pattern_ids : list Z)
    (normalized : matrix) :
  1 <= CHUNK_SIZE cfg ->
  length normalized = length pattern_ids ->
  Permutation (chunked_pairs cfg pattern_ids normalized)
              (dense_pairs (MIN_SIMILARITY_THRESHOLD cfg) pattern_ids normalized).
Proof.
  intros Hc Hlen. rewrite dense_pairs_qualifying by assumption.
  set (n := length pattern_ids).
  set (q := qualifying cfg pattern_ids normalized).
  set (G := fun i => flat_map (q i) (range 0 n)).
  rewrite <- (range_step_tiles 0 n Hc), flat_map_nested. subst G.
  unfold chunked_pairs. fold n.
  apply flat_map_pointwise_perm. intros a Ha.
  apply range_step_bounds in Ha.
  unfold chunk_out, block_out. fold n q.
  rewrite (flat_map_in_ext _
    (fun b => flat_map (fun r => flat_map (q r)
                 (range b (min (b + CHUNK_SIZE cfg) n)))
              (range a (min (a + CHUNK_SIZE cfg) n)))).
  2:{ intros b Hb. apply range_step_bounds in Hb.
      now rewrite Nat.max_l by lia. }
  rewrite <- flat_map_swap_perm.
  apply Permutation_refl'. apply flat_map_in_ext. intros r Hr.
  apply in_range in Hr.
  rewrite <- flat_map_nested, range_step_tiles by assumption.
  apply qualifying_left_of; lia.
Qed.

(** ** Facts about rounding *)

Section Rounding.

Local Open Scope R_scope.

Lemma Int_part_bounds (x : R) : IZR (Int_part x) <= x < IZR (Int_part x) + 1.
Proof. destruct (base_Int_part x). lra. Qed.

Lemma round_half_even_IZR (z : Z) : round_half_even (IZR z) = z.
Proof.
  unfold round_half_even.
  assert (E : Int_part (IZR z) = z).
  { symmetry. apply Int_part_spec. lra. }
  rewrite E.
  destruct (Rlt_dec (IZR z - IZR z) (1 / 2)) as [_|H]; [reflexivity|lra].
Qed.

Lemma round_half_even_mono (x y : R) :
  x <= y -> (round_half_even x <= round_half_even y)%Z.
Proof.
  intros Hxy.
  pose proof (Int_part_bounds x) as Hx. pose proof (Int_part_bounds y) as Hy.
  assert (Hf : (Int_part x <= Int_part y)%Z).
  { apply Zlt_succ_le, lt_IZR. rewrite succ_IZR. lra. }
  unfold round_half_even.
  destruct (Z.eq_dec (Int_part x) (Int_part y)) as [E|N].
  - rewrite <- E in *.
    destruct (Rlt_dec (x - IZR (Int_part x)) (1 / 2)),
             (Rlt_dec (y - IZR (Int_part x)) (1 / 2)),
             (Rlt_dec (1 / 2) (x - IZR (Int_part x))),
             (Rlt_dec (1 / 2) (y - IZR (Int_part x))),
             (Z.even (Int_part x)); try lia; lra.
  - destruct (Rlt_dec (x - IZR (Int_part x)) (1 / 2)),
             (Rlt_dec (y - IZR (Int_part y)) (1 / 2)),
             (Rlt_dec (1 / 2) (x - IZR (Int_part x))),
             (Rlt_dec (1 / 2) (y - IZR (Int_part y))),
             (Z.even (Int_part x)), (Z.even (Int_part y)); lia.
Qed.

Lemma pow10_pos (n : nat) : 0 < 10 ^ n.
Proof. apply pow_lt. lra. Qed.

Lemma py_round_mono (x y : R) (n : nat) :
  x <= y -> py_round x n <= py_round y n.
Proof.
  intros Hxy. unfold py_round.
  pose proof (pow10_pos n) as Hp.
  apply Rmult_le_compat_r; [left; now apply Rinv_0_lt_compat|].
  apply IZR_le, round_half_even_mono.
  apply Rmult_le_compat_r; lra.
Qed.

(** A decimal with at most [n] places is its own rounding. *)
Lemma py_round_decimal (z : Z) (n : nat) :
  py_round (IZR z / 10 ^ n) n = IZR z / 10 ^ n.
Proof.
  unfold py_round. pose proof (pow10_pos n) as Hp.
  replace (IZR z / 10 ^ n * 10 ^ n) with (IZR z) by (field; lra).
  now rewrite round_half_even_IZR.
Qed.

Lemma py_round_one (n : nat) : py_round 1 n = 1.
Proof.
  pose proof (pow10_pos n) as Hp.
  replace 1 with (IZR (10 ^ Z.of_nat n) / 10 ^ n) at 1 2.
  - rewrite py_round_decimal. rewrite <- pow_IZR. field. lra.
  - rewrite <- pow_IZR. field. lra.
Qed.

Lemma py_round_threshold : py_round (85 / 100) 6 = 85 / 100.
Proof.
  replace (85 / 100) with (IZR 850000 / 10 ^ 6) by (simpl; lra).
  apply py_round_decimal.
Qed.

End Rounding.

(** ** Facts about norms and inner products *)

Section Cosine.

Local Open Scope R_scope.

Lemma sumsq_nonneg (v : vector) : 0 <= vsum (map (fun x => x * x) v).
Proof.
  induction v as [|x v IH]; simpl; [lra|].
  pose proof (Rle_0_sqr x) as H. unfold Rsqr in H. lra.
Qed.

Lemma abs_le_of_sq (d m : R) : 0 <= m -> d * d <= m * m -> d <= m /\ - d <= m.
Proof. intros Hm H. split; nra. Qed.

Lemma cauchy_schwarz_sq (u v : vector) :
  dot u v * dot u v
  <= vsum (map (fun x => x * x) u) * vsum (map (fun x => x * x) v).
Proof.
  revert v. induction u as [|x u IH]; intros [|y v].
  - unfold dot; simpl; lra.
  - unfold dot. simpl. pose proof (sumsq_nonneg (y :: v)) as H. simpl in H. lra.
  - unfold dot. simpl. pose proof (sumsq_nonneg (x :: u)) as H. simpl in H. lra.
  - specialize (IH v). unfold dot in *. simpl.
    set (D := vsum (map (fun p => fst p * snd p) (combine u v))) in *.
    pose proof (sumsq_nonneg u) as HA. pose proof (sumsq_nonneg v) as HB.
    set (A := vsum (map (fun x => x * x) u)) in *.
    set (B := vsum (map (fun x => x * x) v)) in *.
    pose proof (sqrt_sqrt A HA) as Ea. pose proof (sqrt_sqrt B HB) as Eb.
    pose proof (sqrt_pos A) as Pa. pose proof (sqrt_pos B) as Pb.
    set (a := sqrt A) in *. set (b := sqrt B) in *.
    assert (Hab : 0 <= a * b) by nra.
    destruct (@abs_le_of_sq D (a * b) Hab) as [H1 H2]; [nra|].
    assert (Hmix : 2 * (x * y) * D <= x * x * B + y * y * A).
    { pose proof (Rle_0_sqr (x * b - y * a)) as S1.
      pose proof (Rle_0_sqr (x * b + y * a)) as S2.
      unfold Rsqr in S1, S2.
      destruct (Rle_dec 0 (x * y)) as [Hp|Hn].
      - assert (x * y * D <= x * y * (a * b)) by (apply Rmult_le_compat_l; lra).
        nra.
      - assert (- (x * y) * - D <= - (x * y) * (a * b))
          by (apply Rmult_le_compat_l; lra).
        nra. }
    nra.
Qed.

Lemma dot_le_norms (u v : vector) : dot u v <= linalg_norm u * linalg_norm v.
Proof.
  unfold linalg_norm.
  pose proof (sumsq_nonneg u) as HA. pose proof (sumsq_nonneg v) as HB.
  rewrite <- sqrt_mult by assumption.
  destruct (Rle_dec (dot u v) 0) as [Hn|Hp].
  - pose proof (sqrt_pos (vsum (map (fun x => x * x) u)
                          * vsum (map (fun x => x * x) v))). lra.
  - rewrite <- (sqrt_square (dot u v)) by lra.
    apply sqrt_le_1_alt, cauchy_schwarz_sq.
Qed.

Lemma norm_zero_entries (v : vector) :
  linalg_norm v = 0 -> Forall (fun x => x = 0) v.
Proof.
  unfold linalg_norm. intros H.
  apply sqrt_eq_0 in H; [|apply sumsq_nonneg].
  induction v as [|x v IH]; constructor; simpl in H;
    pose proof (sumsq_nonneg v); pose proof (Rle_0_sqr x) as S; unfold Rsqr in S.
  - nra.
  - apply IH. lra.
Qed.

Lemma where_zero_one_neq (x : R) : where_zero_one x <> 0.
Proof. unfold where_zero_one. destruct (Req_dec_T x 0); lra. Qed.

Lemma dot_scaled (u v : vector) (a b : R) :
  a <> 0 -> b <> 0 ->
  dot (map (fun x => x / a) u) (map (fun x => x / b) v) = dot u v / (a * b).
Proof.
  intros Ha Hb. revert v. unfold dot.
  induction u as [|x u IH]; intros [|y v]; simpl;
    try (field; now split).
  rewrite IH. field. now split.
Qed.

Lemma dot_zeros_l (u v : vector) : Forall (fun x => x = 0) u -> dot u v = 0.
Proof.
  intros H. revert v. unfold dot.
  induction H as [|x u Hx _ IH]; intros [|y v]; simpl; try reflexivity.
  rewrite IH, Hx. lra.
Qed.

Lemma dot_comm (u v : vector) : dot u v = dot v u.
Proof.
  revert v. unfold dot.
  induction u as [|x u IH]; intros [|y v]; simpl; try reflexivity.
  rewrite IH. lra.
Qed.

Lemma unit_row_zero (v : vector) :
  linalg_norm v = 0 -> unit_row v = repeat 0 (length v).
Proof.
  intros H. unfold unit_row, where_zero_one.
  destruct (Req_dec_T (linalg_norm v) 0) as [_|N]; [|contradiction].
  apply norm_zero_entries in H.
  induction H as [|x u Hx _ IH]; simpl; [reflexivity|].
  rewrite IH, Hx. f_equal. lra.
Qed.

Lemma unit_row_nonzero (v : vector) :
  linalg_norm v <> 0 -> unit_row v = map (fun x => x / linalg_norm v) v.
Proof.
  intros H. unfold unit_row, where_zero_one.
  destruct (Req_dec_T (linalg_norm v) 0); [contradiction|reflexivity].
Qed.

Lemma dot_repeat_zero (k : nat) (v : vector) : dot (repeat 0 k) v = 0.
Proof.
  apply dot_zeros_l. apply Forall_forall. intros x Hx.
  now apply repeat_spec in Hx.
Qed.

(** Cosine similarity never exceeds 1. *)
Lemma dot_unit_rows_le_1 (u v : vector) : dot (unit_row u) (unit_row v) <= 1.
Proof.
  destruct (Req_dec_T (linalg_norm u) 0) as [Zu|Nu].
  { rewrite (unit_row_zero u Zu), dot_repeat_zero. lra. }
  destruct (Req_dec_T (linalg_norm v) 0) as [Zv|Nv].
  { rewrite (unit_row_zero v Zv), dot_comm, dot_repeat_zero. lra. }
  rewrite (unit_row_nonzero u Nu), (unit_row_nonzero v Nv).
  rewrite dot_scaled by assumption.
  assert (Pu : 0 < linalg_norm u).
  { pose proof (sqrt_pos (vsum (map (fun x => x * x) u))). unfold linalg_norm in *. lra. }
  assert (Pv : 0 < linalg_norm v).
  { pose proof (sqrt_pos (vsum (map (fun x => x * x) v))). unfold linalg_norm in *. lra. }
  assert (P : 0 < linalg_norm u * linalg_norm v) by now apply Rmult_lt_0_compat.
  apply Rmult_le_reg_r with (linalg_norm u * linalg_norm v); [assumption|].
  replace (dot u v / (linalg_norm u * linalg_norm v) * (linalg_norm u * linalg_norm v))
    with (dot u v) by (field; lra).
  rewrite Rmult_1_l. apply dot_le_norms.
Qed.

Lemma nth_normalize_embeddings (embeddings : matrix) (i : nat) :
  (i < length embeddings)%nat ->
  nth i (normalize_embeddings embeddings) [] = unit_row (nth i embeddings []).
Proof.
  intros Hi. unfold normalize_embeddings. rewrite map_map.
  set (f := fun p : vector * R => map (fun x => x / snd p) (fst p)).
  rewrite (nth_indep _ [] (f ([], where_zero_one (linalg_norm []))))
    by (rewrite length_map, length_combine, length_map; lia).
  rewrite (map_nth f).
  rewrite combine_nth by now rewrite length_map.
  rewrite (map_nth (fun v => where_zero_one (linalg_norm v))).
  reflexivity.
Qed.

Lemma sim_at_normalized (embeddings : matrix) (i j : nat) :
  (i < length embeddings)%nat -> (j < length embeddings)%nat ->
  sim_at (normalize_embeddings embeddings) i j
  = dot (unit_row (nth i embeddings [])) (unit_row (nth j embeddings [])).
Proof.
  intros Hi Hj. unfold sim_at. now rewrite !nth_normalize_embeddings.
Qed.

End Cosine.

(** ** The run as a whole *)

(** On an empty id list the function prints one line and returns. *)
Lemma compute_empty (cfg : Config) (embeddings : matrix) (w : World) (s0 : St) :
  compute_and_store_similarities cfg [] embeddings w s0
  = (Returned tt,
     mkSt (trace s0 ++ [Print MsgNoPatterns]) (pairs_to_insert s0)
          (total_pairs_found s0)).
Proof. reflexivity. Qed.

Lemma posted_remainder_concat (full : list (list Pair)) (rest : list Pair) :
  concat (full ++ remainder rest) = concat full ++ rest.
Proof.
  rewrite concat_app. destruct rest; simpl; now rewrite ?app_nil_r.
Qed.

(** The pairs a call hands to the store: it returns, and the batches it
    posts hold, in order, exactly [chunked_pairs]. *)
Lemma compute_posts (cfg : Config) (w : World) (pattern_ids : list Z)
    (embeddings : matrix) (s0 : St) :
  1 <= CHUNK_SIZE cfg -> 1 <= INSERT_BATCH_SIZE cfg ->
  store_reachable w ->
  length embeddings = length pattern_ids ->
  exists s' batches,
    compute_and_store_similarities cfg pattern_ids embeddings w s0
      = (Returned tt, s') /\
    posted (trace s') = posted (trace s0) ++ batches /\
    mutations (trace s') = mutations (trace s0) ++ map Post batches /\
    concat batches
      = chunked_pairs cfg pattern_ids (normalize_embeddings embeddings).
Proof.
  intros Hc Hb Hw Hlen.
  destruct pattern_ids as [|id ids].
  - exists (mkSt (trace s0 ++ [Print MsgNoPatterns]) (pairs_to_insert s0)
                 (total_pairs_found s0)), [].
    rewrite compute_empty. cbn [trace]. rewrite posted_app, mutations_app.
    simpl. rewrite !app_nil_r. auto.
  - destruct (@compute_run cfg w Hb Hw (id :: ids) embeddings s0 Hlen
                ltac:(discriminate) Hc)
      as (s' & full & rest & t & E & Ht & Hp & Hm & _ & _ & Hcat & _).
    exists s', (full ++ remainder rest).
    rewrite Ht, !posted_app, !mutations_app, Hm, Hp. simpl.
    rewrite !app_nil_r, posted_remainder_concat. auto.
Qed.

(** ** Facts about the sample worlds *)

Lemma nominal_world_reachable (pages : nat -> response page_body) :
  store_reachable (nominal_world pages).
Proof. intros k b. discriminate. Qed.

(** ** Chunking is exact *)

(** C1. For every embedding set and every chunk size [C >= 1], the call
    returns and the pairs it posts are, counted with multiplicity, exactly
    the entries [i < j] of the full dense similarity matrix of the
    normalized vectors that pass the threshold, as canonical pairs with
    rounded scores.  The right-hand side does not mention the chunk size, so
    neither the pair set nor any score depends on it. *)
Theorem chunking_matches_dense_matrix (cfg : Config) (w : World)
    (pattern_ids : list Z) (embeddings : matrix) (s0 : St) :
  1 <= CHUNK_SIZE cfg -> 1 <= INSERT_BATCH_SIZE cfg ->
  store_reachable w ->
  length embeddings = length pattern_ids ->
  exists s' batches,
    compute_and_store_similarities cfg pattern_ids embeddings w s0
      = (Returned tt, s') /\
    posted (trace s') = posted (trace s0) ++ batches /\
    Permutation (concat batches)
      (dense_pairs (MIN_SIMILARITY_THRESHOLD cfg) pattern_ids
                   (normalize_embeddings embeddings)).
Proof.
  intros Hc Hb Hw Hlen.
  destruct (@compute_posts cfg w pattern_ids embeddings s0 Hc Hb Hw Hlen)
    as (s' & batches & E & Hp & _ & Hcat).
  exists s', batches. repeat split; try assumption.
  rewrite Hcat. apply chunked_pairs_dense; [assumption|].
  now rewrite length_normalize_embeddings.
Qed.

Lemma chunking_matches_dense_matrix_witness :
  exists s' batches,
    compute_and_store_similarities source_config scenario_ids
      scenario_embeddings (nominal_world no_pages) initial
      = (Returned tt, s') /\
    posted (trace s') = posted (trace initial) ++ batches /\
    Permutation (concat batches)
      (dense_pairs (MIN_SIMILARITY_THRESHOLD source_config) scenario_ids
                   (normalize_embeddings scenario_embeddings)).
Proof.
  apply chunking_matches_dense_matrix.
  - simpl. lia.
  - simpl. lia.
  - apply nominal_world_reachable.
  - reflexivity.
Defined.

(** ** The end-to-end scenario *)

Lemma scenario_normalized :
  normalize_embeddings scenario_embeddings = scenario_embeddings.
Proof.
  unfold normalize_embeddings, scenario_embeddings, linalg_norm. simpl.
  replace (1 * 1 + (0 * 0 + (0 * 0 + 0)))%R with 1%R by lra.
  replace (0 * 0 + (1 * 1 + (0 * 0 + 0)))%R with 1%R by lra.
  replace (0 * 0 + (0 * 0 + (0 * 0 + 0)))%R with 0%R by lra.
  rewrite sqrt_1, sqrt_0. unfold where_zero_one.
  destruct (Req_dec_T 1 0) as [H|_]; [lra|].
  destruct (Req_dec_T 0 0) as [_|H]; [|lra].
  repeat (f_equal; try lra).
Qed.

Lemma scenario_chunked_pairs :
  chunked_pairs source_config scenario_ids scenario_embeddings
  = [mkPair 10 11 1].
Proof.
  unfold chunked_pairs, chunk_out, block_out, range_step, range.
  simpl. unfold qualifying, sim_at, dot. simpl.
  repeat match goal with
  | |- context [Rge_dec ?a ?b] => destruct (Rge_dec a b); try lra
  end.
  simpl. unfold canonical. simpl. f_equal. f_equal.
  replace (1 * 1 + (0 * 0 + (0 * 0 + 0)))%R with 1%R by lra.
  apply py_round_one.
Qed.

(** The batches of a call, split into the full ones flushed inside the loops
    and the remainder flushed at the end. *)
Lemma compute_batches (cfg : Config) (w : World) (pattern_ids : list Z)
    (embeddings : matrix) (s0 : St) :
  1 <= CHUNK_SIZE cfg -> 1 <= INSERT_BATCH_SIZE cfg ->
  store_reachable w ->
  length embeddings = length pattern_ids ->
  exists s' full rest,
    compute_and_store_similarities cfg pattern_ids embeddings w s0
      = (Returned tt, s') /\
    posted (trace s') = posted (trace s0) ++ full ++ remainder rest /\
    mutations (trace s')
      = mutations (trace s0) ++ map Post (full ++ remainder rest) /\
    Forall (fun b => length b = INSERT_BATCH_SIZE cfg) full /\
    length rest < INSERT_BATCH_SIZE cfg /\
    concat full ++ rest
      = chunked_pairs cfg pattern_ids (normalize_embeddings embeddings).
Proof.
  intros Hc Hb Hw Hlen.
  destruct pattern_ids as [|id ids].
  - exists (mkSt (trace s0 ++ [Print MsgNoPatterns]) (pairs_to_insert s0)
                 (total_pairs_found s0)), [], [].
    rewrite compute_empty. cbn [trace]. rewrite posted_app, mutations_app.
    simpl. rewrite !app_nil_r. repeat split; auto.
  - destruct (@compute_run cfg w Hb Hw (id :: ids) embeddings s0 Hlen
                ltac:(discriminate) Hc)
      as (s' & full & rest & t & E & Ht & Hp & Hm & Hf & Hr & Hcat & _).
    exists s', full, rest.
    rewrite Ht, !posted_app, !mutations_app, Hm, Hp. simpl.
    rewrite !app_nil_r. auto 10.
Qed.

(** C2. On the four embeddings [A = [1,0,0]], [B = [1,0,0]], [C = [0,1,0]],
    [D = [0,0,0]] with ids 10, 11, 12, 13 and the threshold 0.85 of the
    source, the call returns having sent the store exactly one request: a
    batch holding the single pair (10, 11, 1.0). *)
Theorem scenario_stores_one_pair (w : World) (s0 : St) :
  store_reachable w ->
  exists s',
    compute_and_store_similarities source_config scenario_ids
      scenario_embeddings w s0 = (Returned tt, s') /\
    posted (trace s') = posted (trace s0) ++ [[mkPair 10 11 1]] /\
    mutations (trace s') = mutations (trace s0) ++ [Post [mkPair 10 11 1]].
Proof.
  intros Hw.
  destruct (@compute_batches source_config w scenario_ids scenario_embeddings s0)
    as (s' & full & rest & E & Hp & Hm & Hf & Hr & Hcat);
    [simpl; lia|simpl; lia|assumption|reflexivity|].
  rewrite scenario_normalized, scenario_chunked_pairs in Hcat.
  exists s'. split; [exact E|].
  destruct full as [|b full].
  - simpl in Hcat. subst rest. simpl in Hp, Hm. now split.
  - exfalso. inversion Hf as [|? ? Hlb _]. subst.
    apply (f_equal (@length Pair)) in Hcat.
    simpl in Hcat, Hlb. rewrite !length_app in Hcat. lia.
Qed.

Lemma scenario_stores_one_pair_witness :
  exists s',
    compute_and_store_similarities source_config scenario_ids
      scenario_embeddings (nominal_world no_pages) initial = (Returned tt, s') /\
    posted (trace s') = posted (trace initial) ++ [[mkPair 10 11 1]] /\
    mutations (trace s') = mutations (trace initial) ++ [Post [mkPair 10 11 1]].
Proof.
  apply scenario_stores_one_pair. intros k b. discriminate.
Defined.

(** ** Canonical order and the threshold *)

Lemma in_scan_pairs (cfg : Config) (pattern_ids : list Z)
    (normalized : matrix) (p : Pair) :
  In p (scan_pairs cfg pattern_ids normalized) <->
  exists i j,
    i < j < length pattern_ids /\
    (sim_at normalized i j >= MIN_SIMILARITY_THRESHOLD cfg)%R /\
    p = canonical (nth i pattern_ids 0%Z) (nth j pattern_ids 0%Z)
                  (sim_at normalized i j).
Proof.
  unfold scan_pairs. rewrite in_flat_map. split.
  - intros (i & Hi & H). apply in_flat_map in H. destruct H as (j & Hj & H).
    apply in_range in Hj. unfold qualifying in H.
    destruct (Nat.ltb_spec i j); [|contradiction].
    destruct (Rge_dec _ _); [|contradiction].
    destruct H as [<-|[]]. exists i, j. repeat split; auto; lia.
  - intros (i & j & Hij & Hs & ->). exists i. split; [apply in_range; lia|].
    apply in_flat_map. exists j. split; [apply in_range; lia|].
    unfold qualifying. destruct (Nat.ltb_spec i j); [|lia].
    destruct (Rge_dec _ _); [now left|contradiction].
Qed.

Lemma chunked_pairs_scan (cfg : Config) (pattern_ids : list Z)
    (normalized : matrix) :
  1 <= CHUNK_SIZE cfg ->
  length normalized = length pattern_ids ->
  Permutation (chunked_pairs cfg pattern_ids normalized)
              (scan_pairs cfg pattern_ids normalized).
Proof.
  intros Hc Hlen. unfold scan_pairs.
  rewrite <- dense_pairs_qualifying by assumption.
  now apply chunked_pairs_dense.
Qed.

(** C3. In a run over records with pairwise distinct ids, every pair handed
    to the store comes from two positions [i < j] of the fetch order; its
    [pattern_id_1] is the smaller and its [pattern_id_2] the larger of the
    two records' ids, whatever their positions, so [pattern_id_1 <
    pattern_id_2] and no pair has equal ids. *)
Theorem stored_pairs_are_canonical (cfg : Config) (w : World)
    (pattern_ids : list Z) (embeddings : matrix) (s0 : St) :
  1 <= CHUNK_SIZE cfg -> 1 <= INSERT_BATCH_SIZE cfg ->
  store_reachable w ->
  length embeddings = length pattern_ids ->
  NoDup pattern_ids ->
  exists s' batches,
    compute_and_store_similarities cfg pattern_ids embeddings w s0
      = (Returned tt, s') /\
    posted (trace s') = posted (trace s0) ++ batches /\
    forall p, In p (concat batches) ->
      (exists i j,
         i < j < length pattern_ids /\
         pattern_id_1 p = Z.min (nth i pattern_ids 0%Z) (nth j pattern_ids 0%Z) /\
         pattern_id_2 p = Z.max (nth i pattern_ids 0%Z) (nth j pattern_ids 0%Z)) /\
      (pattern_id_1 p < pattern_id_2 p)%Z.
Proof.
  intros Hc Hb Hw Hlen Hnd.
  destruct (@compute_posts cfg w pattern_ids embeddings s0 Hc Hb Hw Hlen)
    as (s' & batches & E & Hp & _ & Hcat).
  exists s', batches. repeat split; try assumption.
  - rewrite Hcat in H.
    eapply Permutation_in in H;
      [|apply chunked_pairs_scan;
        [assumption|now rewrite length_normalize_embeddings]].
    apply in_scan_pairs in H. destruct H as (i & j & Hij & _ & ->).
    exists i, j. repeat split; auto; lia.
  - rewrite Hcat in H.
    eapply Permutation_in in H;
      [|apply chunked_pairs_scan;
        [assumption|now rewrite length_normalize_embeddings]].
    apply in_scan_pairs in H. destruct H as (i & j & Hij & _ & ->).
    simpl.
    assert (N : nth i pattern_ids 0%Z <> nth j pattern_ids 0%Z).
    { intros Eq. apply (proj1 (NoDup_nth pattern_ids 0%Z) Hnd) in Eq; lia. }
    lia.
Qed.

Lemma stored_pairs_are_canonical_witness :
  exists s' batches,
    compute_and_store_similarities source_config [11; 10]%Z
      [[1; 0; 0]; [1; 0; 0]]%R (nominal_world no_pages) initial
      = (Returned tt, s') /\
    posted (trace s') = posted (trace initial) ++ batches /\
    forall p, In p (concat batches) ->
      (exists i j,
         i < j < length [11; 10]%Z /\
         pattern_id_1 p = Z.min (nth i [11; 10]%Z 0%Z) (nth j [11; 10]%Z 0%Z) /\
         pattern_id_2 p = Z.max (nth i [11; 10]%Z 0%Z) (nth j [11; 10]%Z 0%Z)) /\
      (pattern_id_1 p < pattern_id_2 p)%Z.
Proof.
  apply stored_pairs_are_canonical.
  - simpl. lia.
  - simpl. lia.
  - apply nominal_world_reachable.
  - reflexivity.
  - repeat constructor; simpl; intuition discriminate.
Defined.

Lemma cosine_le_1 (embeddings : matrix) (i j : nat) :
  i < length embeddings -> j < length embeddings ->
  (cosine embeddings i j <= 1)%R.
Proof.
  intros Hi Hj. unfold cosine. rewrite sim_at_normalized by assumption.
  apply dot_unit_rows_le_1.
Qed.



(** ** The normalizer *)



(** ** Batching *)

(** C6. The requests a call sends to the store are POSTs only: first the
    batches flushed inside the loops, each of exactly [INSERT_BATCH_SIZE]
    pairs, then one final batch with the remainder when there is one.  The
    batches together hold every qualifying canonical pair exactly once, in
    the order found; every batch is non-empty and has at most
    [INSERT_BATCH_SIZE] pairs. *)
Theorem pairs_flushed_in_bounded_batches (cfg : Config) (w : World)
    (pattern_ids : list Z) (embeddings : matrix) (s0 : St) :
  1 <= CHUNK_SIZE cfg -> 1 <= INSERT_BATCH_SIZE cfg ->
  store_reachable w ->
  length embeddings = length pattern_ids ->
  exists s' full rest,
    compute_and_store_similarities cfg pattern_ids embeddings w s0
      = (Returned tt, s') /\
    posted (trace s') = posted (trace s0) ++ full ++ remainder rest /\
    mutations (trace s')
      = mutations (trace s0) ++ map Post (full ++ remainder rest) /\
    Forall (fun b => length b = INSERT_BATCH_SIZE cfg) full /\
    length rest < INSERT_BATCH_SIZE cfg /\
    concat (full ++ remainder rest)
      = chunked_pairs cfg pattern_ids (normalize_embeddings embeddings) /\
    Permutation (concat (full ++ remainder rest))
      (scan_pairs cfg pattern_ids (normalize_embeddings embeddings)) /\
    Forall (fun b => 1 <= length b <= INSERT_BATCH_SIZE cfg)
           (full ++ remainder rest).
Proof.
  intros Hc Hb Hw Hlen.
  destruct (@compute_batches cfg w pattern_ids embeddings s0 Hc Hb Hw Hlen)
    as (s' & full & rest & E & Hp & Hm & Hf & Hr & Hcat).
  exists s', full, rest.
  rewrite posted_remainder_concat, Hcat.
  repeat (split; [assumption|]).
  split; [reflexivity|].
  split.
  - apply chunked_pairs_scan; [assumption|].
    now rewrite length_normalize_embeddings.
  - apply Forall_app. split.
    + eapply Forall_impl; [|exact Hf]. simpl. intros b Eb. lia.
    + destruct rest as [|p rest']; simpl; constructor; [|constructor].
      simpl in *. lia.
Qed.

Lemma pairs_flushed_in_bounded_batches_witness :
  exists s' full rest,
    compute_and_store_similarities source_config scenario_ids
      scenario_embeddings (nominal_world no_pages) initial
      = (Returned tt, s') /\
    posted (trace s') = posted (trace initial) ++ full ++ remainder rest /\
    mutations (trace s')
      = mutations (trace initial) ++ map Post (full ++ remainder rest) /\
    Forall (fun b => length b = INSERT_BATCH_SIZE source_config) full /\
    length rest < INSERT_BATCH_SIZE source_config /\
    concat (full ++ remainder rest)
      = chunked_pairs source_config scenario_ids
          (normalize_embeddings scenario_embeddings) /\
    Permutation (concat (full ++ remainder rest))
      (scan_pairs source_config scenario_ids
         (normalize_embeddings scenario_embeddings)) /\
    Forall (fun b => 1 <= length b <= INSERT_BATCH_SIZE source_config)
           (full ++ remainder rest).
Proof.
  apply pairs_flushed_in_bounded_batches.
  - simpl. lia.
  - simpl. lia.
  - apply nominal_world_reachable.
  - reflexivity.
Defined.

(** ** Fetching does not touch the store *)

Lemma quiet_ret {A} (a : A) : quiet (ret a).
Proof. intros w s r s' H. inversion H. reflexivity. Qed.

Lemma quiet_raise {A} (e : exn) : quiet (@raise A e).
Proof. intros w s r s' H. inversion H. reflexivity. Qed.

Lemma quiet_out_of_fuel {A} : quiet (@out_of_fuel A).
Proof. intros w s r s' H. inversion H. reflexivity. Qed.

Lemma quiet_ask : quiet ask.
Proof. intros w s r s' H. inversion H. reflexivity. Qed.

Lemma quiet_emit (e : event) : is_mutation e = false -> quiet (emit e).
Proof.
  intros He w s r s' H. inversion H. simpl.
  rewrite mutations_app. simpl. rewrite He. apply app_nil_r.
Qed.

Lemma quiet_bind {A B} (m : M A) (k : A -> M B) :
  quiet m -> (forall a, quiet (k a)) -> quiet (bind m k).
Proof.
  intros Hm Hk w s r s' H. unfold bind in H.
  destruct (m w s) as [[a|e|] s1] eqn:E.
  - apply Hk in H. apply Hm in E. congruence.
  - inversion H; subst. eapply Hm; eassumption.
  - inversion H; subst. eapply Hm; eassumption.
Qed.

Lemma quiet_mapM {A B} (f : A -> M B) (l : list A) :
  (forall a, quiet (f a)) -> quiet (mapM f l).
Proof.
  intros Hf. induction l as [|x l IH]; simpl.
  - apply quiet_ret.
  - apply quiet_bind; [apply Hf|]. intros y.
    apply quiet_bind; [apply IH|]. intros ys. apply quiet_ret.
Qed.

Create HintDb quiet.
#[local] Hint Resolve quiet_ret quiet_raise quiet_out_of_fuel quiet_ask
  quiet_bind quiet_mapM : quiet.

Lemma quiet_requests_get (offset : nat) : quiet (requests_get offset).
Proof.
  unfold requests_get. apply quiet_bind; [now apply quiet_emit|]. intros _.
  apply quiet_bind; [apply quiet_ask|]. intros w.
  destruct (patterns_get w offset); auto with quiet.
Qed.

Lemma quiet_fetch_loop (fuel : nat) :
  forall all_patterns offset, quiet (fetch_loop fuel all_patterns offset).
Proof.
  induction fuel as [|fuel IH]; intros all_patterns offset; simpl.
  - apply quiet_out_of_fuel.
  - apply quiet_bind; [apply quiet_requests_get|]. intros [status body].
    apply quiet_bind.
    { unfold raise_for_status. destruct (_ && _)%bool; auto with quiet. }
    intros _. apply quiet_bind.
    { destruct body; simpl; auto with quiet. }
    intros [|p batch]; [apply quiet_ret|].
    apply quiet_bind; [now apply quiet_emit|]. intros _. apply IH.
Qed.

Lemma quiet_get_all_embeddings (fuel : nat) : quiet (get_all_embeddings fuel).
Proof.
  unfold get_all_embeddings.
  apply quiet_bind; [now apply quiet_emit|]. intros _.
  apply quiet_bind; [apply quiet_fetch_loop|]. intros all_patterns.
  apply quiet_bind; [now apply quiet_emit|]. intros _.
  destruct all_patterns as [|p ps]; [apply quiet_ret|].
  apply quiet_bind.
  { apply quiet_mapM. intros a. unfold parse_embedding.
    destruct (row_embedding a) as [v|[v|]]; auto with quiet. }
  intros rows. apply quiet_bind; [|intros; apply quiet_ret].
  unfold np_array. destruct rows as [|r rs]; [apply quiet_ret|].
  destruct (forallb (fun r' => length r' =? length r) rs); auto with quiet.
Qed.

Lemma posted_of_mutations (t1 t0 : list event) :
  mutations t1 = mutations t0 -> posted t1 = posted t0.
Proof.
  assert (G : forall t, posted t = posted (mutations t)).
  { induction t as [|[m|o| |b] t IH]; simpl; auto. now rewrite IH. }
  intros H. now rewrite (G t1), (G t0), H.
Qed.

(** ** Failures *)

Lemma quiet_fetch_phase (fuel : nat) : quiet (fetch_phase fuel).
Proof.
  unfold fetch_phase. apply quiet_bind; [now apply quiet_emit|].
  intros _. apply quiet_get_all_embeddings.
Qed.

Lemma main_unfold (cfg : Config) (fuel : nat) (w : World) (s0 : St) :
  key_missing w = false ->
  main cfg fuel w s0
  = bind (fetch_phase fuel) (fun r =>
      if length (fst r) =? 0 then print MsgNoEmbeddings
      else
        print MsgClearing ;;
        clear_similarities_table ;;
        compute_and_store_similarities cfg (fst r) (snd r) ;;
        print MsgDone) w s0.
Proof.
  intros Hk. unfold main, fetch_phase. unfold bind at 1. unfold ask at 1.
  rewrite Hk. unfold bind, print, emit. reflexivity.
Qed.



(** How one page can make the fetch fail, at whatever offset the loop has
    reached. *)
Lemma fetch_loop_page_failure (fuel : nat) (all_patterns : list pattern_row)
    (offset : nat) (w : World) (s : St) :
  let s1 := mkSt (trace s ++ [Get offset]) (pairs_to_insert s)
                 (total_pairs_found s) in
  (patterns_get w offset = Unreachable ->
   fetch_loop (S fuel) all_patterns offset w s = (Raised ConnectionError, s1)) /\
  (forall status body,
     patterns_get w offset = Reply status body ->
     ((400 <=? status) && (status <? 600))%Z = true ->
     fetch_loop (S fuel) all_patterns offset w s
     = (Raised (HTTPError status), s1)) /\
  (forall status,
     patterns_get w offset = Reply status NotJson ->
     ((400 <=? status) && (status <? 600))%Z = false ->
     fetch_loop (S fuel) all_patterns offset w s
     = (Raised JSONDecodeError, s1)).
Proof.
  simpl. unfold bind, requests_get, emit, ask, raise_for_status, bind.
  repeat split.
  - intros H. simpl. now rewrite H.
  - intros status body H Hs. simpl. rewrite H. simpl. now rewrite Hs.
  - intros status H Hs. simpl. rewrite H. simpl. now rewrite Hs.
Qed.

(** ** The scenario, run step by step *)

Ltac step_run :=
  repeat progress
    (cbn -[Rge_dec Rplus Rmult Rdiv py_round];
     unfold bind, print, emit, set_total_pairs_found, set_pairs_to_insert, ret,
       get_state, ask, raise, chunk, block, py_range, cell, index2, index,
       store_pair, insert_similarities).

Ltac decide_threshold :=
  match goal with
  | |- context [Rge_dec ?a ?b] =>
      destruct (Rge_dec a b); [try (exfalso; lra)|try (exfalso; lra)]
  end.

Lemma compute_scenario (w : World) (status : Z) (s0 : St) :
  (forall k b, similarities_post w k b = Reply status tt) ->
  compute_and_store_similarities source_config scenario_ids
    scenario_embeddings w s0
  = (Returned tt,
     mkSt (trace s0 ++
             [Print (MsgComputing 4 6); Print MsgNormalizing;
              Print (MsgProgress 4 4 1); Post [mkPair 10 11 1]]
             ++ insert_warning status
             ++ [Print MsgComplete; Print (MsgTotalFound 1)])
          [mkPair 10 11 1] 1).
Proof.
  intros Hpost. unfold compute_and_store_similarities.
  rewrite scenario_normalized.
  unfold scenario_ids, scenario_embeddings, source_config.
  step_run. repeat (decide_threshold; step_run).
  rewrite Hpost. unfold insert_warning.
  replace (1 * 1 + (0 * 0 + (0 * 0 + 0)))%R with 1%R by lra.
  rewrite py_round_one.
  destruct ((status =? 200) || (status =? 201))%Z; step_run;
    rewrite <- !app_assoc; reflexivity.
Qed.

Lemma fetch_scenario (w : World) (s0 : St) :
  key_missing w = false ->
  patterns_get w = scenario_pages ->
  fetch_phase 2 w s0
  = (Returned (scenario_ids, scenario_embeddings),
     mkSt (trace s0 ++ [Print MsgBanner; Print MsgFetching; Get 0;
                        Print (MsgFetched 4); Get 4;
                        Print (MsgTotalPatterns 4)])
          (pairs_to_insert s0) (total_pairs_found s0)).
Proof.
  intros _ Hpages.
  unfold fetch_phase, get_all_embeddings, fetch_loop, requests_get, bind,
    print, emit, ask.
  cbn [trace pairs_to_insert total_pairs_found].
  rewrite Hpages. simpl. rewrite Hpages. simpl.
  rewrite <- !app_assoc. reflexivity.
Qed.

Lemma clear_reply (w : World) (s : St) (status : Z) (body : unit) :
  similarities_delete w = Reply status body ->
  clear_similarities_table w s
  = (Returned tt,
     mkSt (trace s ++ [Delete] ++ clear_warning status)
          (pairs_to_insert s) (total_pairs_found s)).
Proof.
  intros H. unfold clear_similarities_table, clear_warning, bind, emit, ask.
  simpl. rewrite H.
  destruct ((status =? 200) || (status =? 204) || (status =? 404))%Z; simpl.
  - reflexivity.
  - unfold print, emit. simpl. now rewrite <- app_assoc.
Qed.

Lemma clear_unreachable (w : World) (s : St) :
  similarities_delete w = Unreachable ->
  clear_similarities_table w s
  = (Raised ConnectionError,
     mkSt (trace s ++ [Delete]) (pairs_to_insert s) (total_pairs_found s)).
Proof.
  intros H. unfold clear_similarities_table, bind, emit, ask. simpl.
  now rewrite H.
Qed.

(** The whole trace of [main] on the scenario. *)
Lemma main_scenario (clear_status insert_status : Z) :
  main source_config 2 (scenario_world clear_status insert_status) initial
  = (Returned tt,
     mkSt ([Print MsgBanner; Print MsgFetching; Get 0; Print (MsgFetched 4);
            Get 4; Print (MsgTotalPatterns 4); Print MsgClearing; Delete]
           ++ clear_warning clear_status
           ++ [Print (MsgComputing 4 6); Print MsgNormalizing;
               Print (MsgProgress 4 4 1); Post [mkPair 10 11 1]]
           ++ insert_warning insert_status
           ++ [Print MsgComplete; Print (MsgTotalFound 1); Print MsgDone])
          [mkPair 10 11 1] 1).
Proof.
  rewrite main_unfold by reflexivity.
  unfold bind at 1. rewrite fetch_scenario by reflexivity.
  cbn [fst snd length scenario_ids Nat.eqb].
  unfold bind at 1. unfold print at 1, emit at 1.
  cbn [trace pairs_to_insert total_pairs_found initial].
  unfold bind at 1.
  rewrite (@clear_reply _ _ clear_status tt) by reflexivity.
  unfold bind at 1.
  rewrite (@compute_scenario _ insert_status) by reflexivity.
  unfold print, emit. cbn [trace pairs_to_insert total_pairs_found].
  f_equal. f_equal. simpl. rewrite <- !app_assoc. simpl.
  rewrite <- !app_assoc. reflexivity.
Qed.

(** ** A failed clear *)

(** C8, as the specification states it, fails: on the scenario with a store
    that answers the DELETE with status 500, [main] prints a warning, goes
    on to compute, posts the pair and returns normally. *)
Lemma clear_failure_does_not_stop_the_run :
  similarities_delete (scenario_world 500 201) = Reply 500 tt /\
  exists s',
    main source_config 2 (scenario_world 500 201) initial = (Returned tt, s') /\
    trace s'
    = [Print MsgBanner; Print MsgFetching; Get 0; Print (MsgFetched 4);
       Get 4; Print (MsgTotalPatterns 4); Print MsgClearing; Delete;
       Print (MsgWarnClear 500);
       Print (MsgComputing 4 6); Print MsgNormalizing;
       Print (MsgProgress 4 4 1); Post [mkPair 10 11 1];
       Print MsgComplete; Print (MsgTotalFound 1); Print MsgDone] /\
    mutations (trace s') = [Delete; Post [mkPair 10 11 1]].
Proof.
  split; [reflexivity|].
  eexists. split; [apply main_scenario|].
  split; reflexivity.
Qed.

(** C8, amended.  After a successful fetch of a non-empty set, a DELETE
    answered with any status only adds, for a status other than 200, 204
    and 404, a warning line: [main] goes on to run
    [compute_and_store_similarities] on the fetched records.  The run stops
    before computing only when the DELETE call itself raises. *)
Theorem clear_status_failure_only_warns (cfg : Config) (fuel : nat)
    (w : World) (s0 s1 : St) (pattern_ids : list Z) (embeddings : matrix) :
  key_missing w = false ->
  fetch_phase fuel w s0 = (Returned (pattern_ids, embeddings), s1) ->
  pattern_ids <> [] ->
  (forall status body,
     similarities_delete w = Reply status body ->
     main cfg fuel w s0
     = (compute_and_store_similarities cfg pattern_ids embeddings ;;
        print MsgDone) w
         (mkSt (trace s1 ++ [Print MsgClearing; Delete] ++ clear_warning status)
               (pairs_to_insert s1) (total_pairs_found s1))) /\
  (similarities_delete w = Unreachable ->
     main cfg fuel w s0
     = (Raised ConnectionError,
        mkSt (trace s1 ++ [Print MsgClearing; Delete])
             (pairs_to_insert s1) (total_pairs_found s1))).
Proof.
  intros Hk Hf Hne.
  assert (Hn : (length pattern_ids =? 0) = false).
  { destruct pattern_ids; [congruence|reflexivity]. }
  split.
  - intros status body Hd.
    rewrite main_unfold by assumption.
    unfold bind at 1. rewrite Hf. cbn [fst snd]. rewrite Hn.
    unfold bind at 1. unfold print at 1, emit at 1.
    unfold bind at 1. rewrite (@clear_reply w _ status body Hd).
    cbn [trace pairs_to_insert total_pairs_found].
    rewrite <- !app_assoc. reflexivity.
  - intros Hd.
    rewrite main_unfold by assumption.
    unfold bind at 1. rewrite Hf. cbn [fst snd]. rewrite Hn.
    unfold bind at 1. unfold print at 1, emit at 1.
    unfold bind at 1. rewrite (@clear_unreachable w _ Hd).
    cbn [trace pairs_to_insert total_pairs_found].
    rewrite <- !app_assoc. reflexivity.
Qed.

Lemma clear_status_failure_only_warns_witness :
  (forall status body,
     similarities_delete (scenario_world 500 201) = Reply status body ->
     main source_config 2 (scenario_world 500 201) initial
     = (compute_and_store_similarities source_config scenario_ids
          scenario_embeddings ;;
        print MsgDone) (scenario_world 500 201)
         (mkSt (trace scenario_fetched
                ++ [Print MsgClearing; Delete] ++ clear_warning status)
               (pairs_to_insert scenario_fetched)
               (total_pairs_found scenario_fetched))) /\
  (similarities_delete (scenario_world 500 201) = Unreachable ->
     main source_config 2 (scenario_world 500 201) initial
     = (Raised ConnectionError,
        mkSt (trace scenario_fetched ++ [Print MsgClearing; Delete])
             (pairs_to_insert scenario_fetched)
             (total_pairs_found scenario_fetched))).
Proof.
  apply (@clear_status_failure_only_warns source_config 2
           (scenario_world 500 201) initial scenario_fetched
           scenario_ids scenario_embeddings).
  - reflexivity.
  - reflexivity.
  - discriminate.
Defined.

(** ** Failed flushes and the summary *)

(** C9, as the specification states it, fails: run on the scenario against
    a store that accepts the batch and against one that rejects it with
    status 500, [main] prints the same summary - the count of pairs found
    and the closing line - although one pair was stored in the first run
    and none in the second.  No line of the summary tells the two apart. *)
Lemma summary_does_not_report_stored_count :
  exists s_ok s_fail,
    main source_config 2 (scenario_world 204 201) initial
      = (Returned tt, s_ok) /\
    main source_config 2 (scenario_world 204 500) initial
      = (Returned tt, s_fail) /\
    summary (trace s_ok) = [MsgComplete; MsgTotalFound 1; MsgDone] /\
    summary (trace s_fail) = [MsgComplete; MsgTotalFound 1; MsgDone] /\
    stored (scenario_world 204 201) (trace s_ok) = 1 /\
    stored (scenario_world 204 500) (trace s_fail) = 0.
Proof.
  eexists. eexists.
  split; [apply main_scenario|].
  split; [apply main_scenario|].
  repeat split; reflexivity.
Qed.

(** What a POST that the store answers does to the state. *)
Lemma insert_reply (w : World) (s : St) (p : Pair) (buf : list Pair)
    (status : Z) (body : unit) :
  similarities_post w (length (posted (trace s))) (p :: buf)
    = Reply status body ->
  insert_similarities (p :: buf) w s
  = (Returned tt,
     mkSt (trace s ++ [Post (p :: buf)] ++ insert_warning status)
          (pairs_to_insert s) (total_pairs_found s)).
Proof.
  intros H. unfold insert_similarities, insert_warning, bind, get_state,
    emit, ask. simpl. rewrite H.
  destruct ((status =? 200) || (status =? 201))%Z; simpl.
  - reflexivity.
  - unfold print, emit. simpl. now rewrite <- app_assoc.
Qed.

(** C9, amended.  A flush that the store answers with a failing status
    prints a warning and returns normally, so the run continues: whatever
    the statuses, every batch is posted, the call returns, and its last two
    lines are the summary, which reports one count only - the pairs found,
    equal to the number of pairs posted. *)
Theorem failed_flush_warns_and_run_continues (cfg : Config) (w : World)
    (pattern_ids : list Z) (embeddings : matrix) (s0 : St) :
  1 <= CHUNK_SIZE cfg -> 1 <= INSERT_BATCH_SIZE cfg ->
  store_reachable w ->
  length embeddings = length pattern_ids ->
  pattern_ids <> [] ->
  (forall s p buf status body,
     similarities_post w (length (posted (trace s))) (p :: buf)
       = Reply status body ->
     insert_similarities (p :: buf) w s
     = (Returned tt,
        mkSt (trace s ++ [Post (p :: buf)] ++ insert_warning status)
             (pairs_to_insert s) (total_pairs_found s))) /\
  exists s' batches t,
    compute_and_store_similarities cfg pattern_ids embeddings w s0
      = (Returned tt, s') /\
    trace s' = trace s0 ++ t ++
               [Print MsgComplete;
                Print (MsgTotalFound (length (concat batches)))] /\
    posted t = batches /\
    concat batches
      = chunked_pairs cfg pattern_ids (normalize_embeddings embeddings) /\
    total_pairs_found s' = length (concat batches).
Proof.
  intros Hc Hb Hw Hlen Hne.
  split.
  - intros s p buf status body H. exact (@insert_reply w s p buf status body H).
  - destruct (@compute_run cfg w Hb Hw pattern_ids embeddings s0 Hlen Hne Hc)
      as (s' & full & rest & t & E & Ht & Hp & _ & _ & _ & Hcat & Hn).
    exists s', (full ++ remainder rest), t.
    rewrite posted_remainder_concat, Hcat.
    repeat split; assumption.
Qed.

Lemma failed_flush_warns_and_run_continues_witness :
  (forall s p buf status body,
     similarities_post (scenario_world 204 500)
       (length (posted (trace s))) (p :: buf) = Reply status body ->
     insert_similarities (p :: buf) (scenario_world 204 500) s
     = (Returned tt,
        mkSt (trace s ++ [Post (p :: buf)] ++ insert_warning status)
             (pairs_to_insert s) (total_pairs_found s))) /\
  exists s' batches t,
    compute_and_store_similarities source_config scenario_ids
      scenario_embeddings (scenario_world 204 500) initial
      = (Returned tt, s') /\
    trace s' = trace initial ++ t ++
               [Print MsgComplete;
                Print (MsgTotalFound (length (concat batches)))] /\
    posted t = batches /\
    concat batches
      = chunked_pairs source_config scenario_ids
          (normalize_embeddings scenario_embeddings) /\
    total_pairs_found s' = length (concat batches).
Proof.
  apply failed_flush_warns_and_run_continues.
  - simpl. lia.
  - simpl. lia.
  - intros k b. discriminate.
  - reflexivity.
  - discriminate.
Defined.

(** ** An empty embedding set *)

(** C10. When the first page of the source is an empty list, [main] prints
    that no patterns were found and returns: it has sent one GET and
    neither a DELETE nor a POST, so the store keeps what it held. *)
Theorem empty_source_leaves_store_untouched (cfg : Config) (fuel : nat)
    (w : World) (s0 : St) (status : Z) :
  key_missing w = false ->
  patterns_get w 0 = Reply status (Rows []) ->
  ((400 <=? status) && (status <? 600))%Z = false ->
  exists s',
    main cfg (S fuel) w s0 = (Returned tt, s') /\
    trace s' = trace s0 ++ [Print MsgBanner; Print MsgFetching; Get 0;
                            Print (MsgTotalPatterns 0); Print MsgNoEmbeddings] /\
    mutations (trace s') = mutations (trace s0) /\
    posted (trace s') = posted (trace s0).
Proof.
  intros Hk Hpage Hstatus.
  assert (E : main cfg (S fuel) w s0
              = (Returned tt,
                 mkSt (trace s0 ++ [Print MsgBanner; Print MsgFetching; Get 0;
                                    Print (MsgTotalPatterns 0);
                                    Print MsgNoEmbeddings])
                      (pairs_to_insert s0) (total_pairs_found s0))).
  { rewrite main_unfold by assumption.
    unfold fetch_phase, get_all_embeddings, fetch_loop, requests_get,
      raise_for_status, response_json, bind, print, emit, ask, ret.
    cbn [trace pairs_to_insert total_pairs_found].
    rewrite Hpage. cbn [fst snd]. rewrite Hstatus. simpl.
    rewrite <- !app_assoc. reflexivity. }
  eexists. split; [exact E|]. cbn [trace].
  split; [reflexivity|].
  rewrite mutations_app, posted_app. simpl. now rewrite !app_nil_r.
Qed.

Lemma empty_source_leaves_store_untouched_witness :
  exists s',
    main source_config 1 (nominal_world no_pages) initial = (Returned tt, s') /\
    trace s' = trace initial ++ [Print MsgBanner; Print MsgFetching; Get 0;
                                 Print (MsgTotalPatterns 0);
                                 Print MsgNoEmbeddings] /\
    mutations (trace s') = mutations (trace initial) /\
    posted (trace s') = posted (trace initial).
Proof.
  apply (@empty_source_leaves_store_untouched source_config 0
           (nominal_world no_pages) initial 200).
  - reflexivity.
  - reflexivity.
  - reflexivity.
Defined.

(** * Further properties of the script *)

(** ** Normalized rows are unit vectors *)

Section UnitVectors.

Local Open Scope R_scope.

Lemma dot_self (v : vector) : dot v v = vsum (map (fun x => x * x) v).
Proof.
  unfold dot. induction v as [|x v IH]; simpl; [reflexivity|]. now rewrite IH.
Qed.

Lemma sumsq_divided (v : vector) (c : R) :
  c <> 0 ->
  vsum (map (fun x => x * x) (map (fun x => x / c) v))
  = vsum (map (fun x => x * x) v) / (c * c).
Proof.
  intros Hc. induction v as [|x v IH]; simpl.
  - field. exact Hc.
  - rewrite IH. field. exact Hc.
Qed.

Lemma sumsq_multiplied (v : vector) (c : R) :
  vsum (map (fun x => x * x) (map (fun x => c * x) v))
  = c * c * vsum (map (fun x => x * x) v).
Proof.
  induction v as [|x v IH]; simpl; [ring|]. rewrite IH. ring.
Qed.

Lemma linalg_norm_nonneg (v : vector) : 0 <= linalg_norm v.
Proof. apply sqrt_pos. Qed.

Lemma linalg_norm_sq (v : vector) :
  linalg_norm v * linalg_norm v = vsum (map (fun x => x * x) v).
Proof. apply sqrt_sqrt, sumsq_nonneg. Qed.

Lemma linalg_norm_divided (v : vector) (c : R) :
  0 < c -> linalg_norm (map (fun x => x / c) v) = linalg_norm v / c.
Proof.
  intros Hc. unfold linalg_norm.
  rewrite sumsq_divided by lra.
  rewrite sqrt_div_alt by nra.
  now rewrite sqrt_square by lra.
Qed.

Lemma linalg_norm_multiplied (v : vector) (c : R) :
  0 <= c -> linalg_norm (map (fun x => c * x) v) = c * linalg_norm v.
Proof.
  intros Hc. unfold linalg_norm.
  rewrite sumsq_multiplied.
  rewrite sqrt_mult by (try nra; apply sumsq_nonneg).
  now rewrite sqrt_square by lra.
Qed.

Lemma linalg_norm_unit_row (v : vector) :
  linalg_norm v <> 0 -> linalg_norm (unit_row v) = 1.
Proof.
  intros Hn. rewrite (unit_row_nonzero v Hn).
  pose proof (linalg_norm_nonneg v).
  rewrite linalg_norm_divided by lra. field. exact Hn.
Qed.

Lemma linalg_norm_repeat_zero (k : nat) : linalg_norm (repeat 0 k) = 0.
Proof.
  unfold linalg_norm.
  replace (vsum (map (fun x => x * x) (repeat 0 k))) with 0; [apply sqrt_0|].
  induction k as [|k IH]; simpl; [reflexivity|]. rewrite <- IH. ring.
Qed.

Lemma linalg_norm_unit_row_zero (v : vector) :
  linalg_norm v = 0 -> linalg_norm (unit_row v) = 0.
Proof.
  intros Hz. rewrite (unit_row_zero v Hz). apply linalg_norm_repeat_zero.
Qed.

Lemma map_div_one (v : vector) : map (fun x => x / 1) v = v.
Proof.
  induction v as [|x v IH]; simpl; [reflexivity|]. rewrite IH. f_equal. field.
Qed.

Lemma unit_row_idempotent (v : vector) : unit_row (unit_row v) = unit_row v.
Proof.
  destruct (Req_dec_T (linalg_norm v) 0) as [Hz|Hn].
  - unfold unit_row at 1. rewrite (linalg_norm_unit_row_zero v Hz).
    unfold where_zero_one. destruct (Req_dec_T 0 0); [|contradiction].
    apply map_div_one.
  - unfold unit_row at 1. rewrite (linalg_norm_unit_row v Hn).
    unfold where_zero_one. destruct (Req_dec_T 1 0); [lra|].
    apply map_div_one.
Qed.

Lemma normalize_embeddings_rows (embeddings : matrix) :
  normalize_embeddings embeddings = map unit_row embeddings.
Proof.
  unfold normalize_embeddings. rewrite map_map.
  induction embeddings as [|v e IH]; simpl; [reflexivity|].
  now rewrite IH.
Qed.

Lemma dot_opp_l (u v : vector) : dot (map Ropp u) v = - dot u v.
Proof.
  revert v. unfold dot.
  induction u as [|x u IH]; intros [|y v]; simpl; try ring.
  rewrite IH. ring.
Qed.

Lemma linalg_norm_opp (u : vector) : linalg_norm (map Ropp u) = linalg_norm u.
Proof.
  unfold linalg_norm. f_equal.
  induction u as [|x u IH]; simpl; [reflexivity|]. rewrite IH. ring.
Qed.

Lemma dot_ge_norms (u v : vector) :
  - (linalg_norm u * linalg_norm v) <= dot u v.
Proof.
  pose proof (dot_le_norms (map Ropp u) v) as H.
  rewrite dot_opp_l, linalg_norm_opp in H. lra.
Qed.

Lemma dot_unit_rows_ge_m1 (u v : vector) :
  -1 <= dot (unit_row u) (unit_row v).
Proof.
  pose proof (dot_ge_norms (unit_row u) (unit_row v)) as H.
  assert (Hu : linalg_norm (unit_row u) = 0 \/ linalg_norm (unit_row u) = 1).
  { destruct (Req_dec_T (linalg_norm u) 0);
      [left; now apply linalg_norm_unit_row_zero
      |right; now apply linalg_norm_unit_row]. }
  assert (Hv : linalg_norm (unit_row v) = 0 \/ linalg_norm (unit_row v) = 1).
  { destruct (Req_dec_T (linalg_norm v) 0);
      [left; now apply linalg_norm_unit_row_zero
      |right; now apply linalg_norm_unit_row]. }
  destruct Hu as [Hu|Hu], Hv as [Hv|Hv]; rewrite Hu, Hv in H; lra.
Qed.

Lemma dot_unit_row_self (v : vector) :
  linalg_norm v <> 0 -> dot (unit_row v) (unit_row v) = 1.
Proof.
  intros Hn. rewrite dot_self, <- linalg_norm_sq.
  rewrite (linalg_norm_unit_row v Hn). ring.
Qed.

Lemma unit_row_multiplied (v : vector) (c : R) :
  0 < c -> unit_row (map (fun x => c * x) v) = unit_row v.
Proof.
  intros Hc. unfold unit_row.
  rewrite linalg_norm_multiplied by lra.
  unfold where_zero_one.
  destruct (Req_dec_T (linalg_norm v) 0) as [Hz|Hn].
  - rewrite Hz, Rmult_0_r. destruct (Req_dec_T 0 0); [|contradiction].
    apply norm_zero_entries in Hz.
    induction Hz as [|x u Hx _ IH]; simpl; [reflexivity|].
    rewrite IH, Hx. f_equal. field.
  - pose proof (linalg_norm_nonneg v) as Hp.
    destruct (Req_dec_T (c * linalg_norm v) 0) as [Hz'|_]; [nra|].
    rewrite map_map. apply map_ext. intros x. field. split; lra.
Qed.

End UnitVectors.






(** ** More about what a call sends *)

(** A call on well-formed input returns, and the pairs it posts are those of
    a row-by-row scan, each once. *)
Lemma compute_posts_scan (cfg : Config) (w : World) (pattern_ids : list Z)
    (embeddings : matrix) (s0 : St) :
  1 <= CHUNK_SIZE cfg -> 1 <= INSERT_BATCH_SIZE cfg ->
  store_reachable w ->
  length embeddings = length pattern_ids ->
  exists s' batches,
    compute_and_store_similarities cfg pattern_ids embeddings w s0
      = (Returned tt, s') /\
    posted (trace s') = posted (trace s0) ++ batches /\
    Permutation (concat batches)
      (scan_pairs cfg pattern_ids (normalize_embeddings embeddings)).
Proof.
  intros Hc Hb Hw Hlen.
  destruct (@compute_posts cfg w pattern_ids embeddings s0 Hc Hb Hw Hlen)
    as (s' & batches & E & Hp & _ & Hcat).
  exists s', batches. repeat split; try assumption.
  rewrite Hcat. apply chunked_pairs_scan; [assumption|].
  now rewrite length_normalize_embeddings.
Qed.


Lemma scenario_first_row_norm :
  linalg_norm (nth 0 scenario_embeddings []) <> 0%R.
Proof.
  unfold linalg_norm. simpl.
  replace (1 * 1 + (0 * 0 + (0 * 0 + 0)))%R with 1%R by lra.
  rewrite sqrt_1. lra.
Qed.

Lemma scenario_second_row :
  nth 1 scenario_embeddings []
  = map (fun x => (1 * x)%R) (nth 0 scenario_embeddings []).
Proof. simpl. repeat (f_equal; try lra). Qed.


(** ** Rounding error *)

Section RoundingError.

Local Open Scope R_scope.

Lemma round_half_even_error (y : R) :
  - (1 / 2) <= IZR (round_half_even y) - y <= 1 / 2.
Proof.
  pose proof (Int_part_bounds y) as Hb. unfold round_half_even.
  destruct (Rlt_dec (y - IZR (Int_part y)) (1 / 2)) as [H1|H1].
  - lra.
  - destruct (Rlt_dec (1 / 2) (y - IZR (Int_part y))) as [H2|H2].
    + rewrite plus_IZR. lra.
    + destruct (Z.even (Int_part y)); [lra|rewrite plus_IZR; lra].
Qed.

Lemma py_round_error (x : R) (n : nat) :
  Rabs (py_round x n - x) <= 1 / (2 * 10 ^ n).
Proof.
  pose proof (pow10_pos n) as Hp.
  pose proof (round_half_even_error (x * 10 ^ n)) as He.
  unfold py_round.
  replace (IZR (round_half_even (x * 10 ^ n)) / 10 ^ n - x)
    with ((IZR (round_half_even (x * 10 ^ n)) - x * 10 ^ n) / 10 ^ n)
    by (field; lra).
  set (d := IZR (round_half_even (x * 10 ^ n)) - x * 10 ^ n) in *.
  apply Rabs_le.
  assert (Hi : 0 < / 10 ^ n) by now apply Rinv_0_lt_compat.
  replace (1 / (2 * 10 ^ n)) with (1 / 2 * / 10 ^ n) by (field; lra).
  unfold Rdiv at 2 3. split.
  - replace (- (1 / 2 * / 10 ^ n)) with (- (1 / 2) * / 10 ^ n) by ring.
    apply Rmult_le_compat_r; lra.
  - apply Rmult_le_compat_r; lra.
Qed.

End RoundingError.

(** X5. The score stored with a pair differs from the cosine similarity of
    the two records by at most half a unit of the sixth decimal. *)
Theorem stored_score_is_close_to_cosine (cfg : Config) (w : World)
    (pattern_ids : list Z) (embeddings : matrix) (s0 : St) :
  1 <= CHUNK_SIZE cfg -> 1 <= INSERT_BATCH_SIZE cfg ->
  store_reachable w ->
  length embeddings = length pattern_ids ->
  exists s' batches,
    compute_and_store_similarities cfg pattern_ids embeddings w s0
      = (Returned tt, s') /\
    posted (trace s') = posted (trace s0) ++ batches /\
    forall p, In p (concat batches) ->
      exists i j,
        i < j < length pattern_ids /\
        pair_key p = (Z.min (nth i pattern_ids 0%Z) (nth j pattern_ids 0%Z),
                      Z.max (nth i pattern_ids 0%Z) (nth j pattern_ids 0%Z)) /\
        (Rabs (similarity p - cosine embeddings i j) <= 1 / 2000000)%R.
Proof.
  intros Hc Hb Hw Hlen.
  destruct (@compute_posts_scan cfg w pattern_ids embeddings s0 Hc Hb Hw Hlen)
    as (s' & batches & E & Hp & Hperm).
  exists s', batches. split; [exact E|]. split; [exact Hp|].
  intros p Hin. eapply Permutation_in in Hin; [|exact Hperm].
  apply in_scan_pairs in Hin. destruct Hin as (i & j & Hij & _ & ->).
  exists i, j. split; [exact Hij|]. split; [reflexivity|].
  simpl. fold (cosine embeddings i j).
  eapply Rle_trans; [apply py_round_error|].
  simpl. lra.
Qed.

Lemma stored_score_is_close_to_cosine_witness :
  exists s' batches,
    compute_and_store_similarities source_config scenario_ids
      scenario_embeddings (nominal_world no_pages) initial
      = (Returned tt, s') /\
    posted (trace s') = posted (trace initial) ++ batches /\
    forall p, In p (concat batches) ->
      exists i j,
        i < j < length scenario_ids /\
        pair_key p = (Z.min (nth i scenario_ids 0%Z) (nth j scenario_ids 0%Z),
                      Z.max (nth i scenario_ids 0%Z) (nth j scenario_ids 0%Z)) /\
        (Rabs (similarity p - cosine scenario_embeddings i j)
         <= 1 / 2000000)%R.
Proof.
  apply stored_score_is_close_to_cosine.
  - simpl. lia.
  - simpl. lia.
  - apply nominal_world_reachable.
  - reflexivity.
Defined.

(** ** Counting *)

Lemma length_flat_map_le {A B} (f : A -> list B) (l : list A) :
  (forall x, length (f x) <= 1) -> length (flat_map f l) <= length l.
Proof.
  intros H. induction l as [|x l IH]; simpl; [lia|].
  rewrite length_app. specialize (H x). lia.
Qed.

Lemma length_qualifying (cfg : Config) (pattern_ids : list Z)
    (normalized : matrix) (i j : nat) :
  length (qualifying cfg pattern_ids normalized i j) <= 1.
Proof.
  unfold qualifying. destruct (i <? j); [|simpl; lia].
  destruct (Rge_dec _ _); simpl; lia.
Qed.

Lemma qualifying_row_length (cfg : Config) (pattern_ids : list Z)
    (normalized : matrix) (r n : nat) :
  r < n ->
  length (flat_map (qualifying cfg pattern_ids normalized r) (range 0 n))
  <= n - 1 - r.
Proof.
  intros Hr.
  assert (E : range 0 n = range 0 (S r) ++ range (S r) n).
  { unfold range. replace (n - 0) with ((S r - 0) + (n - S r)) by lia.
    rewrite seq_app. do 2 f_equal. }
  rewrite E, flat_map_app, length_app.
  rewrite (flat_map_in_ext (qualifying cfg pattern_ids normalized r)
             (fun _ => []) (range 0 (S r))).
  - rewrite flat_map_nil. simpl.
    eapply Nat.le_trans;
      [apply length_flat_map_le; intros; apply length_qualifying|].
    unfold range. rewrite length_seq. lia.
  - intros c Hc. apply in_range in Hc. unfold qualifying.
    destruct (Nat.ltb_spec r c); [lia|reflexivity].
Qed.

Lemma triangle_bound {B} (g : nat -> list B) (n : nat) :
  (forall i, i < n -> length (g i) <= n - 1 - i) ->
  length (flat_map g (range 0 n)) <= n * (n - 1) / 2.
Proof.
  intros Hg.
  assert (G : forall k, k <= n ->
            2 * length (flat_map g (seq 0 k)) + k * (k - 1) <= 2 * k * (n - 1)).
  { induction k as [|k IH]; intros Hk; [simpl; lia|].
    rewrite seq_S, flat_map_app, length_app. simpl flat_map.
    rewrite app_nil_r. specialize (IH ltac:(lia)).
    specialize (Hg k ltac:(lia)). nia. }
  specialize (G n (Nat.le_refl n)).
  unfold range. rewrite Nat.sub_0_r.
  apply Nat.div_le_lower_bound; [lia|]. nia.
Qed.

Lemma length_scan_pairs (cfg : Config) (pattern_ids : list Z)
    (normalized : matrix) :
  length (scan_pairs cfg pattern_ids normalized)
  <= length pattern_ids * (length pattern_ids - 1) / 2.
Proof.
  unfold scan_pairs. apply triangle_bound.
  intros i Hi. now apply qualifying_row_length.
Qed.

(** X6. The number of pairs found, which the summary line reports and which
    is the number of pairs posted, never exceeds [n * (n - 1) // 2], the
    number of comparisons the function announces when it starts. *)
Theorem found_at_most_announced_comparisons (cfg : Config) (w : World)
    (pattern_ids : list Z) (embeddings : matrix) (s0 : St) :
  1 <= CHUNK_SIZE cfg -> 1 <= INSERT_BATCH_SIZE cfg ->
  store_reachable w ->
  length embeddings = length pattern_ids ->
  pattern_ids <> [] ->
  exists s' t found,
    compute_and_store_similarities cfg pattern_ids embeddings w s0
      = (Returned tt, s') /\
    trace s' = trace s0 ++ t ++
               [Print MsgComplete; Print (MsgTotalFound found)] /\
    found = length (concat (posted t)) /\
    found <= length pattern_ids * (length pattern_ids - 1) / 2.
Proof.
  intros Hc Hb Hw Hlen Hne.
  destruct (@compute_run cfg w Hb Hw pattern_ids embeddings s0 Hlen Hne Hc)
    as (s' & full & rest & t & E & Ht & Hp & _ & _ & _ & Hcat & _).
  exists s', t,
    (length (chunked_pairs cfg pattern_ids (normalize_embeddings embeddings))).
  split; [exact E|]. split; [exact Ht|]. split.
  - now rewrite Hp, posted_remainder_concat, Hcat.
  - rewrite (Permutation_length
               (@chunked_pairs_scan cfg pattern_ids
                  (normalize_embeddings embeddings) Hc
                  (eq_trans (length_normalize_embeddings embeddings) Hlen))).
    apply length_scan_pairs.
Qed.

Lemma found_at_most_announced_comparisons_witness :
  exists s' t found,
    compute_and_store_similarities source_config scenario_ids
      scenario_embeddings (nominal_world no_pages) initial
      = (Returned tt, s') /\
    trace s' = trace initial ++ t ++
               [Print MsgComplete; Print (MsgTotalFound found)] /\
    found = length (concat (posted t)) /\
    found <= length scenario_ids * (length scenario_ids - 1) / 2.
Proof.
  apply found_at_most_announced_comparisons.
  - simpl. lia.
  - simpl. lia.
  - apply nominal_world_reachable.
  - reflexivity.
  - discriminate.
Defined.

(** ** No key is posted twice *)

Lemma nodup_app {A} (l1 l2 : list A) :
  NoDup l1 -> NoDup l2 -> (forall x, In x l1 -> In x l2 -> False) ->
  NoDup (l1 ++ l2).
Proof.
  intros H1 H2 Hd. induction H1 as [|x l1 Hx _ IH]; simpl; [assumption|].
  constructor.
  - intros Hin. apply in_app_or in Hin. destruct Hin as [Hin|Hin].
    + now apply Hx.
    + apply (Hd x); [now left|assumption].
  - apply IH. intros y Hy. apply Hd. now right.
Qed.

Lemma nodup_flat_map {A B} (f : A -> list B) (l : list A) :
  NoDup l ->
  (forall x, In x l -> NoDup (f x)) ->
  (forall x y z, In x l -> In y l -> In z (f x) -> In z (f y) -> x = y) ->
  NoDup (flat_map f l).
Proof.
  intros Hl. induction Hl as [|x l Hx _ IH]; simpl; intros Hf Hd;
    [constructor|].
  apply nodup_app.
  - apply Hf. now left.
  - apply IH.
    + intros y Hy. apply Hf. now right.
    + intros y1 y2 z H1 H2. apply Hd; now right.
  - intros z Hz1 Hz2. apply in_flat_map in Hz2.
    destruct Hz2 as (y & Hy & Hzy).
    assert (x = y) by (apply (Hd x y z); [now left|now right|assumption|assumption]).
    subst y. contradiction.
Qed.

Lemma map_flat_map {A B C} (h : B -> C) (f : A -> list B) (l : list A) :
  map h (flat_map f l) = flat_map (fun x => map h (f x)) l.
Proof.
  induction l as [|x l IH]; simpl; [reflexivity|].
  now rewrite map_app, IH.
Qed.

Lemma in_key_qualifying (cfg : Config) (pattern_ids : list Z)
    (normalized : matrix) (i j : nat) (z : Z * Z) :
  In z (map pair_key (qualifying cfg pattern_ids normalized i j)) ->
  i < j /\
  z = (Z.min (nth i pattern_ids 0%Z) (nth j pattern_ids 0%Z),
       Z.max (nth i pattern_ids 0%Z) (nth j pattern_ids 0%Z)).
Proof.
  unfold qualifying. destruct (Nat.ltb_spec i j); [|contradiction].
  destruct (Rge_dec _ _); [|contradiction].
  simpl. intros [<-|[]]. split; [assumption|reflexivity].
Qed.

Lemma nodup_key_qualifying (cfg : Config) (pattern_ids : list Z)
    (normalized : matrix) (i j : nat) :
  NoDup (map pair_key (qualifying cfg pattern_ids normalized i j)).
Proof.
  unfold qualifying. destruct (i <? j); [|constructor].
  destruct (Rge_dec _ _); simpl; repeat constructor. intros [].
Qed.

(** With distinct ids, two index pairs with the same canonical key are the
    same pair. *)
Lemma canonical_key_injective (pattern_ids : list Z) (i j i' j' : nat) :
  NoDup pattern_ids ->
  i < j < length pattern_ids -> i' < j' < length pattern_ids ->
  (Z.min (nth i pattern_ids 0%Z) (nth j pattern_ids 0%Z),
   Z.max (nth i pattern_ids 0%Z) (nth j pattern_ids 0%Z))
  = (Z.min (nth i' pattern_ids 0%Z) (nth j' pattern_ids 0%Z),
     Z.max (nth i' pattern_ids 0%Z) (nth j' pattern_ids 0%Z)) ->
  i = i' /\ j = j'.
Proof.
  intros Hnd Hij Hij' E. inversion E as [[E1 E2]]. clear E.
  pose proof (proj1 (NoDup_nth pattern_ids 0%Z) Hnd) as Hinj.
  assert (D : (nth i pattern_ids 0 = nth i' pattern_ids 0 /\
               nth j pattern_ids 0 = nth j' pattern_ids 0)%Z \/
              (nth i pattern_ids 0 = nth j' pattern_ids 0 /\
               nth j pattern_ids 0 = nth i' pattern_ids 0)%Z) by lia.
  destruct D as [[A B]|[A B]].
  - apply Hinj in A; [|lia|lia]. apply Hinj in B; [|lia|lia]. now split.
  - apply Hinj in A; [|lia|lia]. apply Hinj in B; [|lia|lia]. lia.
Qed.

Lemma nodup_range (a b : nat) : NoDup (range a b).
Proof. apply seq_NoDup. Qed.

Lemma scan_keys_nodup (cfg : Config) (pattern_ids : list Z)
    (normalized : matrix) :
  NoDup pattern_ids ->
  NoDup (map pair_key (scan_pairs cfg pattern_ids normalized)).
Proof.
  intros Hnd. unfold scan_pairs. rewrite map_flat_map.
  apply nodup_flat_map; [apply nodup_range| |].
  - intros i Hi. rewrite map_flat_map.
    apply nodup_flat_map; [apply nodup_range| |].
    + intros j _. apply nodup_key_qualifying.
    + intros j j' z Hj Hj' Hz Hz'.
      apply in_range in Hi, Hj, Hj'.
      apply in_key_qualifying in Hz, Hz'.
      destruct Hz as [Hlt ->], Hz' as [Hlt' E].
      destruct (@canonical_key_injective pattern_ids i j i j' Hnd) as [_ ?];
        [lia|lia|exact E|assumption].
  - intros i i' z Hi Hi' Hz Hz'.
    rewrite map_flat_map in Hz, Hz'.
    apply in_flat_map in Hz, Hz'.
    destruct Hz as (j & Hj & Hz), Hz' as (j' & Hj' & Hz').
    apply in_range in Hi, Hi', Hj, Hj'.
    apply in_key_qualifying in Hz, Hz'.
    destruct Hz as [Hlt ->], Hz' as [Hlt' E].
    destruct (@canonical_key_injective pattern_ids i j i' j' Hnd) as [? _];
      [lia|lia|exact E|assumption].
Qed.



(** ** The number of requests *)

Lemma length_concat_uniform {A} (k : nat) (l : list (list A)) :
  Forall (fun b => length b = k) l -> length (concat l) = length l * k.
Proof.
  induction 1 as [|b l Hb _ IH]; simpl; [reflexivity|].
  rewrite length_app, IH, Hb. lia.
Qed.

Lemma ceiling_of_batches (k b r : nat) :
  1 <= b -> r < b ->
  (k * b + r + b - 1) / b = k + (if r =? 0 then 0 else 1).
Proof.
  intros Hb Hr. destruct (Nat.eqb_spec r 0) as [->|Hn].
  - replace (k * b + 0 + b - 1) with (k * b + (b - 1)) by lia.
    rewrite Nat.div_add_l by lia. rewrite Nat.div_small by lia. lia.
  - replace (k * b + r + b - 1) with ((k + 1) * b + (r - 1)) by lia.
    rewrite Nat.div_add_l by lia. rewrite Nat.div_small by lia. lia.
Qed.

(** X8. A call that finds [found] pairs sends exactly
    [ceil (found / INSERT_BATCH_SIZE)] POST requests. *)
Theorem number_of_posts (cfg : Config) (w : World)
    (pattern_ids : list Z) (embeddings : matrix) (s0 : St) :
  1 <= CHUNK_SIZE cfg -> 1 <= INSERT_BATCH_SIZE cfg ->
  store_reachable w ->
  length embeddings = length pattern_ids ->
  exists s' batches,
    compute_and_store_similarities cfg pattern_ids embeddings w s0
      = (Returned tt, s') /\
    posted (trace s') = posted (trace s0) ++ batches /\
    length batches
    = (length (concat batches) + INSERT_BATCH_SIZE cfg - 1)
      / INSERT_BATCH_SIZE cfg.
Proof.
  intros Hc Hb Hw Hlen.
  destruct (@compute_batches cfg w pattern_ids embeddings s0 Hc Hb Hw Hlen)
    as (s' & full & rest & E & Hp & _ & Hf & Hr & _).
  exists s', (full ++ remainder rest).
  split; [exact E|]. split; [exact Hp|].
  rewrite posted_remainder_concat, !length_app.
  rewrite (length_concat_uniform Hf).
  rewrite ceiling_of_batches by assumption.
  f_equal. destruct rest; reflexivity.
Qed.

Lemma number_of_posts_witness :
  exists s' batches,
    compute_and_store_similarities source_config scenario_ids
      scenario_embeddings (nominal_world no_pages) initial
      = (Returned tt, s') /\
    posted (trace s') = posted (trace initial) ++ batches /\
    length batches
    = (length (concat batches) + INSERT_BATCH_SIZE source_config - 1)
      / INSERT_BATCH_SIZE source_config.
Proof.
  apply number_of_posts.
  - simpl. lia.
  - simpl. lia.
  - apply nominal_world_reachable.
  - reflexivity.
Defined.

(** ** Pagination *)

(** One turn of the fetch loop on a page served with status 200. *)
Lemma fetch_loop_page (fuel : nat) (all_patterns : list pattern_row)
    (offset : nat) (w : World) (s : St) (batch : list pattern_row) :
  patterns_get w offset = Reply 200 (Rows batch) ->
  fetch_loop (S fuel) all_patterns offset w s
  = match batch with
    | [] => (Returned all_patterns,
             mkSt (trace s ++ [Get offset]) (pairs_to_insert s)
                  (total_pairs_found s))
    | _ :: _ =>
        fetch_loop fuel (all_patterns ++ batch) (offset + length batch) w
          (mkSt ((trace s ++ [Get offset])
                 ++ [Print (MsgFetched (offset + length batch))])
                (pairs_to_insert s) (total_pairs_found s))
    end.
Proof.
  intros H. simpl.
  unfold bind, requests_get, emit, ask, print, raise_for_status, bind.
  simpl. rewrite H. simpl. destruct batch; reflexivity.
Qed.

Lemma firstn_nil_skipn {A} (limit : nat) (l : list A) :
  1 <= limit -> firstn limit l = [] -> l = [].
Proof.
  intros Hl H. destruct limit; [lia|]. destruct l; [reflexivity|discriminate].
Qed.

Lemma page_then_rest {A} (limit offset : nat) (l : list A) :
  firstn limit (skipn offset l)
    ++ skipn (offset + length (firstn limit (skipn offset l))) l
  = skipn offset l.
Proof.
  rewrite Nat.add_comm, <- skipn_skipn.
  set (X := skipn offset l).
  destruct (Nat.le_ge_cases limit (length X)) as [Hle|Hge].
  - rewrite length_firstn, Nat.min_l by assumption. apply firstn_skipn.
  - rewrite firstn_all2 by assumption. rewrite skipn_all. apply app_nil_r.
Qed.

(** Against a source that serves its rows [limit] at a time the loop returns
    what it had, followed by every row from [offset] on. *)
Lemma fetch_loop_paged (limit : nat) (rows : list pattern_row) (w : World) :
  1 <= limit ->
  patterns_get w = paged_source limit rows ->
  forall fuel all_patterns offset s,
    length rows - offset < fuel ->
    exists s',
      fetch_loop fuel all_patterns offset w s
        = (Returned (all_patterns ++ skipn offset rows), s') /\
      mutations (trace s') = mutations (trace s).
Proof.
  intros Hl Hw. induction fuel as [|fuel IH]; intros acc offset s Hf; [lia|].
  rewrite (@fetch_loop_page fuel acc offset w s
             (firstn limit (skipn offset rows)))
    by (rewrite Hw; reflexivity).
  destruct (firstn limit (skipn offset rows)) as [|p b] eqn:Eb.
  - apply firstn_nil_skipn in Eb; [|assumption]. rewrite Eb, app_nil_r.
    eexists. split; [reflexivity|]. cbn [trace].
    rewrite mutations_app. simpl. apply app_nil_r.
  - assert (Hlen : 1 <= length (skipn offset rows)).
    { destruct (skipn offset rows); [now destruct limit|simpl; lia]. }
    rewrite length_skipn in Hlen.
    destruct (IH (acc ++ p :: b) (offset + length (p :: b))
                 (mkSt ((trace s ++ [Get offset])
                        ++ [Print (MsgFetched (offset + length (p :: b)))])
                       (pairs_to_insert s) (total_pairs_found s)))
      as (s' & E & Hm).
    { simpl. lia. }
    exists s'. split.
    + rewrite E. f_equal. f_equal. rewrite <- app_assoc. f_equal.
      rewrite <- Eb. apply page_then_rest.
    + rewrite Hm. cbn [trace]. rewrite !mutations_app. simpl.
      now rewrite !app_nil_r.
Qed.

Lemma mapM_parse_embedding (rows : list pattern_row) (w : World) (s : St) :
  Forall decodable rows ->
  mapM (fun p => parse_embedding (row_embedding p)) rows w s
  = (Returned (map embedding_of rows), s).
Proof.
  induction 1 as [|p rows Hp _ IH]; simpl; [reflexivity|].
  unfold bind. unfold decodable in Hp. unfold embedding_of at 1.
  destruct (row_embedding p) as [v|[v|]]; simpl; try congruence;
    now rewrite IH.
Qed.

Lemma np_array_rectangular (rows : list vector) (w : World) (s : St) :
  (forall r r', In r rows -> In r' rows -> length r = length r') ->
  np_array rows w s = (Returned rows, s).
Proof.
  intros H. unfold np_array. destruct rows as [|r rs]; [reflexivity|].
  replace (forallb (fun r' => length r' =? length r) rs) with true;
    [reflexivity|].
  symmetry. apply forallb_forall. intros r' Hr'. apply Nat.eqb_eq.
  apply H; [now right|now left].
Qed.

(** The fetch against a paged source. *)
Lemma get_all_embeddings_paged (limit : nat) (rows : list pattern_row)
    (fuel : nat) (w : World) (s0 : St) :
  1 <= limit -> length rows < fuel ->
  patterns_get w = paged_source limit rows ->
  Forall decodable rows ->
  (forall p q, In p rows -> In q rows ->
     length (embedding_of p) = length (embedding_of q)) ->
  exists s',
    get_all_embeddings fuel w s0
      = (Returned (map row_id rows, map embedding_of rows), s') /\
    mutations (trace s') = mutations (trace s0).
Proof.
  intros Hl Hf Hw Hd Hdim.
  unfold get_all_embeddings. unfold bind at 1. unfold print at 1, emit at 1.
  unfold bind at 1.
  destruct (@fetch_loop_paged limit rows w Hl Hw fuel [] 0
              (mkSt (trace s0 ++ [Print MsgFetching]) (pairs_to_insert s0)
                    (total_pairs_found s0)))
    as (s1 & E & Hm); [lia|].
  rewrite E. simpl app. simpl skipn.
  unfold bind at 1. unfold print at 1, emit at 1.
  cbn [trace] in Hm. rewrite mutations_app in Hm. simpl in Hm.
  rewrite app_nil_r in Hm.
  destruct rows as [|p rows].
  - eexists. split; [reflexivity|]. cbn [trace]. rewrite mutations_app.
    simpl. now rewrite app_nil_r.
  - unfold bind at 1. rewrite mapM_parse_embedding by assumption.
    unfold bind at 1. rewrite np_array_rectangular.
    + eexists. split; [reflexivity|]. cbn [trace]. rewrite mutations_app.
      simpl. now rewrite app_nil_r.
    + intros r r' Hr Hr'. apply in_map_iff in Hr, Hr'.
      destruct Hr as (a & <- & Ha), Hr' as (a' & <- & Ha'). now apply Hdim.
Qed.

(** X9. Against a source that serves [limit] rows at a time, whatever
    [limit >= 1] is, the fetch returns the id and the embedding of every
    row, once each and in the order of the source: the loop moves its offset
    by the size of the page it got, not by the size it asked for. *)
Theorem pagination_collects_every_row (limit : nat)
    (rows : list pattern_row) (fuel : nat) (w : World) (s0 : St) :
  1 <= limit -> length rows < fuel ->
  patterns_get w = paged_source limit rows ->
  Forall decodable rows ->
  (forall p q, In p rows -> In q rows ->
     length (embedding_of p) = length (embedding_of q)) ->
  exists s',
    get_all_embeddings fuel w s0
      = (Returned (map row_id rows, map embedding_of rows), s').
Proof.
  intros Hl Hf Hw Hd Hdim.
  destruct (@get_all_embeddings_paged limit rows fuel w s0 Hl Hf Hw Hd Hdim)
    as (s' & E & _).
  now exists s'.
Qed.

Lemma scenario_rows_decodable : Forall decodable scenario_rows.
Proof. unfold scenario_rows, decodable. repeat constructor; discriminate. Qed.

Lemma scenario_rows_dimension (p q : pattern_row) :
  In p scenario_rows -> In q scenario_rows ->
  length (embedding_of p) = length (embedding_of q).
Proof.
  assert (G : forall a, In a scenario_rows -> length (embedding_of a) = 3).
  { intros a [<-|[<-|[<-|[<-|[]]]]]; reflexivity. }
  intros Hp Hq. now rewrite (G p Hp), (G q Hq).
Qed.

Lemma pagination_collects_every_row_witness :
  exists s',
    get_all_embeddings 5 (nominal_world (paged_source 3 scenario_rows)) initial
      = (Returned (map row_id scenario_rows, map embedding_of scenario_rows),
         s').
Proof.
  apply (@pagination_collects_every_row 3 scenario_rows 5
           (nominal_world (paged_source 3 scenario_rows)) initial).
  - lia.
  - simpl. lia.
  - reflexivity.
  - apply scenario_rows_decodable.
  - apply scenario_rows_dimension.
Defined.

(** ** The shape of what the fetch returns *)

Lemma mapM_length {A B} (f : A -> M B) (l : list A) (w : World) :
  forall s ys s', mapM f l w s = (Returned ys, s') -> length ys = length l.
Proof.
  induction l as [|x l IH]; simpl; intros s ys s' H.
  - inversion H. reflexivity.
  - unfold bind in H. destruct (f x w s) as [[y|e|] s1]; try discriminate.
    destruct (mapM f l w s1) as [[zs|e|] s2] eqn:E; try discriminate.
    inversion H; subst. simpl. f_equal. eapply IH; eassumption.
Qed.

Lemma np_array_returns (rows : list vector) (w : World) (s s' : St)
    (embeddings : matrix) :
  np_array rows w s = (Returned embeddings, s') ->
  embeddings = rows /\
  forall r r', In r rows -> In r' rows -> length r = length r'.
Proof.
  unfold np_array. destruct rows as [|r0 rs].
  - intros H. inversion H. split; [reflexivity|]. intros r r' [].
  - destruct (forallb (fun r' => length r' =? length r0) rs) eqn:E;
      intros H; inversion H; subst. split; [reflexivity|].
    assert (G : forall r, In r (r0 :: rs) -> length r = length r0).
    { intros r [<-|Hr]; [reflexivity|].
      apply Nat.eqb_eq. revert r Hr. now apply forallb_forall. }
    intros r r' Hr Hr'. now rewrite (G r Hr), (G r' Hr').
Qed.

(** X10. Whatever the source sends, when the fetch returns it returns as
    many embedding rows as ids, and all rows have one dimension: rows of
    unequal length make [np.array] raise instead. *)
Theorem fetched_matrix_matches_ids (fuel : nat) (w : World) (s s' : St)
    (pattern_ids : list Z) (embeddings : matrix) :
  get_all_embeddings fuel w s = (Returned (pattern_ids, embeddings), s') ->
  length embeddings = length pattern_ids /\
  forall r r', In r embeddings -> In r' embeddings -> length r = length r'.
Proof.
  unfold get_all_embeddings. unfold bind at 1. unfold print at 1, emit at 1.
  unfold bind at 1.
  destruct (fetch_loop fuel [] 0 w _) as [[all|e|] s1]; try discriminate.
  unfold bind at 1. unfold print at 1, emit at 1.
  destruct all as [|p ps].
  - intros H. inversion H. split; [reflexivity|]. intros r r' [].
  - unfold bind at 1.
    destruct (mapM _ (p :: ps) w _) as [[rows|e|] s2] eqn:Em; try discriminate.
    unfold bind at 1.
    destruct (np_array rows w s2) as [[emb|e|] s3] eqn:En; try discriminate.
    intros H. inversion H; subst.
    apply np_array_returns in En. destruct En as [-> Hrect].
    apply mapM_length in Em. split; [|assumption].
    rewrite Em. simpl. now rewrite length_map.
Qed.

Lemma fetched_matrix_matches_ids_witness :
  length scenario_embeddings = length scenario_ids /\
  forall r r', In r scenario_embeddings -> In r' scenario_embeddings ->
    length r = length r'.
Proof.
  apply (@fetched_matrix_matches_ids 2 (scenario_world 204 201) initial
           (mkSt [Print MsgFetching; Get 0; Print (MsgFetched 4); Get 4;
                  Print (MsgTotalPatterns 4)] [] 0)).
  reflexivity.
Defined.

(** ** The shape of every run *)

Lemma appends_bind_gen {A B} (P Q R : list event -> Prop) (m : M A)
    (k : A -> M B) :
  appends P m -> (forall a, appends Q (k a)) ->
  (forall t, P t -> R t) ->
  (forall t1 t2, P t1 -> Q t2 -> R (t1 ++ t2)) ->
  appends R (bind m k).
Proof.
  intros Hm Hk Hr Happ w s r s' H. unfold bind in H.
  destruct (m w s) as [[a|e|] s1] eqn:E;
    apply Hm in E; destruct E as (t1 & E1 & P1).
  - apply Hk in H. destruct H as (t2 & E2 & Q2).
    exists (t1 ++ t2). split; [|now apply Happ].
    now rewrite E2, E1, <- app_assoc.
  - inversion H; subst. exists t1. auto.
  - inversion H; subst. exists t1. auto.
Qed.

Lemma appends_emit_bind {B} (Q R : list event -> Prop) (e : event)
    (k : M B) :
  appends Q k -> (forall t, Q t -> R (e :: t)) ->
  appends R (emit e ;; k).
Proof.
  intros Hk Hr w s r s' H. unfold bind, emit in H.
  apply Hk in H. destruct H as (t & E & Qt). cbn [trace] in E.
  exists (e :: t). split; [|now apply Hr].
  now rewrite E, <- app_assoc.
Qed.

Lemma appends_weaken {A} (P Q : list event -> Prop) (m : M A) :
  appends P m -> (forall t, P t -> Q t) -> appends Q m.
Proof.
  intros Hm Hpq w s r s' H. apply Hm in H. destruct H as (t & E & Pt).
  exists t. auto.
Qed.

Section Appends.

Variable cfg : Config.
Variable P : list event -> Prop.
Hypothesis P_nil : P [].
Hypothesis P_app : forall t1 t2, P t1 -> P t2 -> P (t1 ++ t2).
Hypothesis P_print : forall m, P [Print m].

Lemma appends_still {A} (m : M A) :
  (forall w s, trace (snd (m w s)) = trace s) -> appends P m.
Proof.
  intros Hm w s r s' H. exists []. split; [|exact P_nil].
  rewrite app_nil_r. specialize (Hm w s). now rewrite H in Hm.
Qed.

Lemma appends_ret {A} (a : A) : appends P (ret a).
Proof. now apply appends_still. Qed.

Lemma appends_raise {A} (e : exn) : appends P (@raise A e).
Proof. now apply appends_still. Qed.

Lemma appends_out_of_fuel {A} : appends P (@out_of_fuel A).
Proof. now apply appends_still. Qed.

Lemma appends_ask : appends P ask.
Proof. now apply appends_still. Qed.

Lemma appends_get_state : appends P get_state.
Proof. now apply appends_still. Qed.

Lemma appends_set_pairs_to_insert (l : list Pair) :
  appends P (set_pairs_to_insert l).
Proof. now apply appends_still. Qed.

Lemma appends_set_total_pairs_found (n : nat) :
  appends P (set_total_pairs_found n).
Proof. now apply appends_still. Qed.

Lemma appends_emit (e : event) : P [e] -> appends P (emit e).
Proof.
  intros He w s r s' H. inversion H; subst. exists [e]. auto.
Qed.

Lemma appends_print (m : message) : appends P (print m).
Proof. apply appends_emit, P_print. Qed.

Lemma appends_bind {A B} (m : M A) (k : A -> M B) :
  appends P m -> (forall a, appends P (k a)) -> appends P (bind m k).
Proof.
  intros Hm Hk. apply (@appends_bind_gen _ _ P P P m k Hm Hk); auto.
Qed.

Lemma appends_for {A} (l : list A) (body : A -> M unit) :
  (forall a, appends P (body a)) -> appends P (for_ l body).
Proof.
  intros Hb. induction l as [|x l IH]; simpl.
  - apply appends_ret.
  - apply appends_bind; [apply Hb|]. intros _. exact IH.
Qed.

Lemma appends_mapM {A B} (f : A -> M B) (l : list A) :
  (forall a, appends P (f a)) -> appends P (mapM f l).
Proof.
  intros Hf. induction l as [|x l IH]; simpl.
  - apply appends_ret.
  - apply appends_bind; [apply Hf|]. intros y.
    apply appends_bind; [apply IH|]. intros ys. apply appends_ret.
Qed.

Lemma appends_index {A} (l : list A) (i : nat) : appends P (index l i).
Proof.
  unfold index. destruct (nth_error l i);
    [apply appends_ret|apply appends_raise].
Qed.

Lemma appends_py_range (start stop step : nat) :
  appends P (py_range start stop step).
Proof.
  unfold py_range. destruct (step =? 0);
    [apply appends_raise|apply appends_ret].
Qed.

Ltac appends_steps :=
  cbv beta zeta;
  repeat
    (match goal with
     | |- appends _ (bind _ _) => apply appends_bind; [|intros ?]
     | |- appends _ (ret _) => apply appends_ret
     | |- appends _ (raise _) => apply appends_raise
     | |- appends _ out_of_fuel => apply appends_out_of_fuel
     | |- appends _ ask => apply appends_ask
     | |- appends _ get_state => apply appends_get_state
     | |- appends _ (set_pairs_to_insert _) =>
         apply appends_set_pairs_to_insert
     | |- appends _ (set_total_pairs_found _) =>
         apply appends_set_total_pairs_found
     | |- appends _ (print _) => apply appends_print
     | |- appends _ (index _ _) => apply appends_index
     | |- appends _ (py_range _ _ _) => apply appends_py_range
     | |- appends _ (for_ _ _) => apply appends_for; intros ?
     | |- appends _ (mapM _ _) => apply appends_mapM; intros ?
     end; cbv beta zeta).

(** The fetch. *)

Hypothesis P_get : forall offset, P [Get offset].

Lemma appends_requests_get (offset : nat) : appends P (requests_get offset).
Proof.
  unfold requests_get.
  apply appends_bind; [apply appends_emit, P_get|]. intros _.
  apply appends_bind; [apply appends_ask|]. intros w.
  destruct (patterns_get w offset); appends_steps.
Qed.

(** What a turn of the fetch loop does with the response. *)
Lemma appends_fetch_turn (fuel : nat) (all_patterns : list pattern_row)
    (offset : nat) (r : Z * page_body) :
  (forall a o, appends P (fetch_loop fuel a o)) ->
  appends P
    (raise_for_status (fst r) ;;
     batch <- response_json (snd r) ;;
     match batch with
     | [] => ret all_patterns
     | _ :: _ =>
         let offset := offset + length batch in
         print (MsgFetched offset) ;;
         fetch_loop fuel (all_patterns ++ batch) offset
     end).
Proof.
  intros IH. apply appends_bind.
  { unfold raise_for_status. destruct (_ && _)%bool; appends_steps. }
  intros _. apply appends_bind.
  { destruct (snd r); simpl; appends_steps. }
  intros [|p batch]; [apply appends_ret|].
  apply appends_bind; [apply appends_print|]. intros _. apply IH.
Qed.

Lemma appends_fetch_loop (fuel : nat) :
  forall all_patterns offset, appends P (fetch_loop fuel all_patterns offset).
Proof.
  induction fuel as [|fuel IH]; intros all_patterns offset; simpl.
  - apply appends_out_of_fuel.
  - apply appends_bind; [apply appends_requests_get|]. intros r.
    now apply appends_fetch_turn.
Qed.

(** What [get_all_embeddings] does once the loop has ended. *)
Lemma appends_fetch_end (all_patterns : list pattern_row) :
  appends P
    (print (MsgTotalPatterns (length all_patterns)) ;;
     match all_patterns with
     | [] => ret ([], [])
     | _ :: _ =>
         let pattern_ids := map row_id all_patterns in
         rows <- mapM (fun p => parse_embedding (row_embedding p))
                      all_patterns ;;
         embeddings <- np_array rows ;;
         ret (pattern_ids, embeddings)
     end).
Proof.
  apply appends_bind; [apply appends_print|]. intros _.
  destruct all_patterns as [|p ps]; [apply appends_ret|].
  apply appends_bind.
  { apply appends_mapM. intros a. unfold parse_embedding.
    destruct (row_embedding a) as [v|[v|]]; appends_steps. }
  intros rows. apply appends_bind; [|intros; apply appends_ret].
  unfold np_array. destruct rows as [|r rs]; [apply appends_ret|].
  destruct (forallb (fun r' => length r' =? length r) rs); appends_steps.
Qed.

Lemma appends_get_all_embeddings (fuel : nat) :
  appends P (get_all_embeddings fuel).
Proof.
  unfold get_all_embeddings.
  apply appends_bind; [apply appends_print|]. intros _.
  apply appends_bind; [apply appends_fetch_loop|]. intros all_patterns.
  apply appends_fetch_end.
Qed.

(** The loops. *)

Hypothesis P_post : forall batch, P [Post batch].

Lemma appends_insert_similarities (pairs : list Pair) :
  appends P (insert_similarities pairs).
Proof.
  unfold insert_similarities. destruct pairs as [|p pairs];
    [apply appends_ret|].
  apply appends_bind; [apply appends_get_state|]. intros s.
  apply appends_bind; [apply appends_emit, P_post|]. intros _.
  apply appends_bind; [apply appends_ask|]. intros w.
  destruct (similarities_post w _ _); [apply appends_raise|].
  destruct (_ || _)%bool; appends_steps.
Qed.

Lemma appends_store_pair (id1 id2 : Z) (sim : R) :
  appends P (store_pair cfg id1 id2 sim).
Proof.
  unfold store_pair. appends_steps.
  destruct (_ <=? _); appends_steps. apply appends_insert_similarities.
Qed.

Lemma appends_cell (pattern_ids : list Z) (similarities : matrix)
    (ci chunk_idx cj compare_idx : nat) :
  appends P (cell cfg pattern_ids similarities ci chunk_idx cj compare_idx).
Proof.
  unfold cell, index2. destruct (_ <=? _); appends_steps.
  destruct (Rge_dec _ _); appends_steps. apply appends_store_pair.
Qed.

Lemma appends_chunk (pattern_ids : list Z) (normalized : matrix)
    (n i : nat) :
  appends P (chunk cfg pattern_ids normalized n i).
Proof.
  unfold chunk, block. appends_steps. apply appends_cell.
Qed.

Lemma appends_compute_and_store_similarities (pattern_ids : list Z)
    (embeddings : matrix) :
  appends P (compute_and_store_similarities cfg pattern_ids embeddings).
Proof.
  unfold compute_and_store_similarities.
  destruct (_ =? 0); appends_steps.
  - apply appends_chunk.
  - destruct (pairs_to_insert _); appends_steps.
    apply appends_insert_similarities.
Qed.

End Appends.

Lemma no_mutation_app (t1 t2 : list event) :
  no_mutation t1 -> no_mutation t2 -> no_mutation (t1 ++ t2).
Proof.
  unfold no_mutation. intros H1 H2. now rewrite mutations_app, H1, H2.
Qed.

Lemma only_posts_app (t1 t2 : list event) :
  only_posts t1 -> only_posts t2 -> only_posts (t1 ++ t2).
Proof.
  intros [b1 H1] [b2 H2]. exists (b1 ++ b2).
  now rewrite mutations_app, H1, H2, map_app.
Qed.

Lemma fetch_appends_no_mutation (fuel : nat) :
  appends no_mutation (get_all_embeddings fuel).
Proof.
  apply appends_get_all_embeddings;
    try reflexivity; try (intros; reflexivity).
  apply no_mutation_app.
Qed.

Lemma compute_appends_only_posts (cfg : Config) (pattern_ids : list Z)
    (embeddings : matrix) :
  appends only_posts
    (compute_and_store_similarities cfg pattern_ids embeddings ;;
     print MsgDone).
Proof.
  assert (Hnil : only_posts []) by (now exists []).
  assert (Hprint : forall m, only_posts [Print m]) by (intros; now exists []).
  apply appends_bind; [exact only_posts_app| |intros _].
  - apply appends_compute_and_store_similarities;
      auto using only_posts_app.
    intros batch. now exists [batch].
  - now apply appends_print.
Qed.

Lemma clear_appends_delete :
  appends (fun t => mutations t = [Delete]) clear_similarities_table.
Proof.
  intros w s r s' H. unfold clear_similarities_table, bind, emit, ask in H.
  cbn [trace pairs_to_insert total_pairs_found] in H.
  destruct (similarities_delete w) as [|status body].
  - inversion H; subst. now exists [Delete].
  - destruct (_ || _)%bool; inversion H; subst; cbn [trace].
    + now exists [Delete].
    + exists [Delete; Print (MsgWarnClear status)].
      now rewrite <- app_assoc.
Qed.

(** What [main] does with the fetched records. *)
Lemma store_phase_appends (cfg : Config) (r : list Z * matrix) :
  appends cleared_then_filled
    (if length (fst r) =? 0 then print MsgNoEmbeddings
     else
       print MsgClearing ;;
       clear_similarities_table ;;
       compute_and_store_similarities cfg (fst r) (snd r) ;;
       print MsgDone).
Proof.
  destruct (_ =? 0).
  - intros w s k s' H. inversion H; subst. exists [Print MsgNoEmbeddings].
    split; [reflexivity|]. now left.
  - apply (@appends_emit_bind _
             (fun t => exists bs, mutations t = Delete :: map Post bs)).
    + eapply appends_bind_gen.
      * apply clear_appends_delete.
      * intros _. apply compute_appends_only_posts.
      * intros t Ht. exists []. exact Ht.
      * intros t1 t2 H1 [bs H2]. exists bs.
        now rewrite mutations_app, H1, H2.
    + intros t [bs Ht]. right. exists bs. exact Ht.
Qed.

Lemma main_appends (cfg : Config) (fuel : nat) :
  appends cleared_then_filled (main cfg fuel).
Proof.
  intros w s r s' H. unfold main in H. unfold bind at 1 in H.
  unfold ask at 1 in H. destruct (key_missing w).
  - inversion H; subst. exists [Print MsgKeyRequired].
    split; [reflexivity|]. now left.
  - revert H. revert w s r s'.
    apply (@appends_emit_bind _ cleared_then_filled); [|auto].
    eapply appends_bind_gen.
    + apply fetch_appends_no_mutation.
    + intros a. apply store_phase_appends.
    + intros t Ht. now left.
    + intros t1 t2 H1 [H2|[bs H2]]; [left|right; exists bs];
        now rewrite mutations_app, H1, H2.
Qed.

(** X11. Whatever the source and the store answer and however the run ends,
    [main] only adds to the trace, and the requests it sends to the store
    are none at all, or one DELETE followed by POSTs only: the table is
    never cleared after a batch has been inserted. *)
Theorem store_cleared_once_before_inserts (cfg : Config) (fuel : nat)
    (w : World) (s0 : St) :
  exists t,
    trace (snd (main cfg fuel w s0)) = trace s0 ++ t /\
    cleared_then_filled t.
Proof.
  destruct (main cfg fuel w s0) as [r s'] eqn:E.
  exact (@main_appends cfg fuel w s0 r s' E).
Qed.

(** ** The service key *)

Lemma fetch_starts_with_get (fuel : nat) :
  appends (starts_with [Print MsgFetching; Get 0])
    (get_all_embeddings (S fuel)).
Proof.
  assert (Htrue : forall A (m : M A),
            appends no_mutation m -> appends (fun _ => True) m).
  { intros A m Hm. eapply appends_weaken; [exact Hm|auto]. }
  unfold get_all_embeddings.
  apply (@appends_emit_bind _ (starts_with [Get 0])).
  - eapply appends_bind_gen
      with (P := starts_with [Get 0]) (Q := fun _ => True).
    + cbn [fetch_loop]. eapply appends_bind_gen
        with (P := starts_with [Get 0]) (Q := fun _ => True).
      * unfold requests_get.
        apply (@appends_emit_bind _ (fun _ => True)).
        -- intros w s r s' H. unfold bind, ask in H.
           destruct (patterns_get w 0); inversion H; subst;
             exists []; now rewrite app_nil_r.
        -- intros t _. now exists t.
      * intros r. apply Htrue.
        apply appends_fetch_turn;
          try reflexivity; try (intros; reflexivity);
          try apply no_mutation_app.
        intros a o. apply appends_fetch_loop;
          try reflexivity; try (intros; reflexivity).
        apply no_mutation_app.
      * auto.
      * intros t1 t2 [t' ->] _. exists (t' ++ t2). now rewrite <- app_assoc.
    + intros all. apply Htrue.
      apply appends_fetch_end; try reflexivity; try (intros; reflexivity).
      apply no_mutation_app.
    + auto.
    + intros t1 t2 [t' ->] _. exists (t' ++ t2). now rewrite <- app_assoc.
  - intros t [t' ->]. now exists t'.
Qed.

Lemma main_starts_with_get (cfg : Config) (fuel : nat) (w : World)
    (s0 : St) :
  key_missing w = false ->
  exists t,
    trace (snd (main cfg (S fuel) w s0))
    = trace s0 ++ [Print MsgBanner; Print MsgFetching; Get 0] ++ t.
Proof.
  intros Hk. destruct (main cfg (S fuel) w s0) as [r s'] eqn:E.
  rewrite main_unfold in E by assumption.
  assert (Hm : appends (starts_with [Print MsgBanner; Print MsgFetching; Get 0])
                 (bind (fetch_phase (S fuel)) (fun r =>
                    if length (fst r) =? 0 then print MsgNoEmbeddings
                    else
                      print MsgClearing ;;
                      clear_similarities_table ;;
                      compute_and_store_similarities cfg (fst r) (snd r) ;;
                      print MsgDone))).
  { eapply appends_bind_gen
      with (P := starts_with [Print MsgBanner; Print MsgFetching; Get 0])
           (Q := fun _ => True).
    - unfold fetch_phase.
      apply (@appends_emit_bind _ (starts_with [Print MsgFetching; Get 0])).
      + apply fetch_starts_with_get.
      + intros t [t' ->]. now exists t'.
    - intros a. eapply appends_weaken; [apply store_phase_appends|auto].
    - auto.
    - intros t1 t2 [t' ->] _. exists (t' ++ t2). now rewrite <- app_assoc. }
  apply Hm in E. destruct E as (t & E & [t' ->]). exists t'. exact E.
Qed.

(** X12. The service key is checked before anything else.  When it is unset
    or empty the run prints one line and exits with status 1 without a
    single request; otherwise the first request it sends is the GET of the
    page at offset 0. *)
Theorem service_key_guards_first_request (cfg : Config) (fuel : nat)
    (w : World) (s0 : St) :
  if key_missing w then
    main cfg (S fuel) w s0
    = (Raised (SystemExit 1),
       mkSt (trace s0 ++ [Print MsgKeyRequired]) (pairs_to_insert s0)
            (total_pairs_found s0))
  else
    exists t,
      trace (snd (main cfg (S fuel) w s0))
      = trace s0 ++ [Print MsgBanner; Print MsgFetching; Get 0] ++ t.
Proof.
  destruct (key_missing w) eqn:Hk.
  - unfold main. unfold bind at 1. unfold ask at 1. rewrite Hk. reflexivity.
  - now apply main_starts_with_get.
Qed.

(** ** From the source to the store *)

(** X13. End to end: against a source that serves its rows a page at a
    time, a store that answers the DELETE and every POST, and with the
    service key set, [main] returns; the requests it sends to the store are
    one DELETE followed by POSTs, and the pairs posted are, each once, the
    entries [i < j] of the dense similarity matrix of the rows of the source
    that pass the threshold. *)
Theorem run_stores_dense_pairs_of_source (cfg : Config) (limit : nat)
    (rows : list pattern_row) (fuel : nat) (w : World) (s0 : St)
    (status : Z) (body : unit) :
  1 <= CHUNK_SIZE cfg -> 1 <= INSERT_BATCH_SIZE cfg ->
  key_missing w = false ->
  1 <= limit -> length rows < fuel -> rows <> [] ->
  patterns_get w = paged_source limit rows ->
  Forall decodable rows ->
  (forall p q, In p rows -> In q rows ->
     length (embedding_of p) = length (embedding_of q)) ->
  similarities_delete w = Reply status body ->
  store_reachable w ->
  exists s' batches,
    main cfg fuel w s0 = (Returned tt, s') /\
    mutations (trace s')
      = mutations (trace s0) ++ Delete :: map Post batches /\
    Permutation (concat batches)
      (dense_pairs (MIN_SIMILARITY_THRESHOLD cfg) (map row_id rows)
                   (normalize_embeddings (map embedding_of rows))).
Proof.
  intros Hc Hb Hk Hl Hf Hne Hw Hd Hdim Hdel Hreach.
  rewrite main_unfold by assumption.
  unfold bind at 1. unfold fetch_phase. unfold bind at 1.
  unfold print at 1, emit at 1.
  destruct (@get_all_embeddings_paged limit rows fuel w
              (mkSt (trace s0 ++ [Print MsgBanner]) (pairs_to_insert s0)
                    (total_pairs_found s0)) Hl Hf Hw Hd Hdim)
    as (s1 & E1 & Hm1).
  rewrite E1. cbn [fst snd].
  cbn [trace] in Hm1. rewrite mutations_app in Hm1. simpl in Hm1.
  rewrite app_nil_r in Hm1.
  assert (Hn : (length (map row_id rows) =? 0) = false).
  { destruct rows; [congruence|reflexivity]. }
  rewrite Hn.
  unfold bind at 1. unfold print at 1, emit at 1.
  unfold bind at 1. rewrite (@clear_reply w _ status body Hdel).
  cbn [trace pairs_to_insert total_pairs_found].
  set (s2 := mkSt _ _ _).
  destruct (@compute_posts cfg w (map row_id rows) (map embedding_of rows) s2
              Hc Hb Hreach)
    as (s3 & batches & E3 & _ & Hm3 & Hcat).
  { now rewrite !length_map. }
  unfold bind at 1. rewrite E3.
  eexists. exists batches. split; [reflexivity|]. cbn [trace]. split.
  - rewrite mutations_app, Hm3. subst s2. cbn [trace].
    rewrite !mutations_app, Hm1. simpl.
    assert (Hcw : mutations (clear_warning status) = []).
    { unfold clear_warning. now destruct (_ || _)%bool. }
    rewrite Hcw. simpl. rewrite !app_nil_r, <- !app_assoc. reflexivity.
  - rewrite Hcat. apply chunked_pairs_dense; [assumption|].
    now rewrite length_normalize_embeddings, !length_map.
Qed.

Lemma run_stores_dense_pairs_of_source_witness :
  exists s' batches,
    main source_config 5 (nominal_world (paged_source 3 scenario_rows)) initial
      = (Returned tt, s') /\
    mutations (trace s')
      = mutations (trace initial) ++ Delete :: map Post batches /\
    Permutation (concat batches)
      (dense_pairs (MIN_SIMILARITY_THRESHOLD source_config)
                   (map row_id scenario_rows)
                   (normalize_embeddings (map embedding_of scenario_rows))).
Proof.
  apply (@run_stores_dense_pairs_of_source source_config 3 scenario_rows 5
           (nominal_world (paged_source 3 scenario_rows)) initial 204 tt).
  - simpl. lia.
  - simpl. lia.
  - reflexivity.
  - lia.
  - simpl. lia.
  - discriminate.
  - reflexivity.
  - apply scenario_rows_decodable.
  - apply scenario_rows_dimension.
  - reflexivity.
  - apply nominal_world_reachable.
Defined.

(** ** Nothing above the threshold *)

Lemma concat_uniform_nil {A} (k : nat) (l : list (list A)) :
  1 <= k -> Forall (fun b => length b = k) l -> concat l = [] -> l = [].
Proof.
  intros Hk Hl Hc. destruct Hl as [|b l Hb _]; [reflexivity|].
  simpl in Hc. apply app_eq_nil in Hc. destruct Hc as [-> _].
  simpl in Hb. lia.
Qed.

Lemma orthogonal_unit_rows (u v : vector) :
  dot u v = 0%R -> dot (unit_row u) (unit_row v) = 0%R.
Proof.
  intros H. unfold unit_row.
  rewrite dot_scaled by apply where_zero_one_neq.
  rewrite H. unfold Rdiv. apply Rmult_0_l.
Qed.

(** X14. When no two records reach the threshold the call returns without a
    single POST: the final flush is skipped on an empty buffer. *)
Theorem nothing_similar_sends_no_post (cfg : Config) (w : World)
    (pattern_ids : list Z) (embeddings : matrix) (s0 : St) :
  1 <= CHUNK_SIZE cfg -> 1 <= INSERT_BATCH_SIZE cfg ->
  store_reachable w ->
  length embeddings = length pattern_ids ->
  (forall i j, i < j < length pattern_ids ->
     (cosine embeddings i j < MIN_SIMILARITY_THRESHOLD cfg)%R) ->
  exists s',
    compute_and_store_similarities cfg pattern_ids embeddings w s0
      = (Returned tt, s') /\
    mutations (trace s') = mutations (trace s0) /\
    posted (trace s') = posted (trace s0).
Proof.
  intros Hc Hb Hw Hlen Hlow.
  destruct (@compute_batches cfg w pattern_ids embeddings s0 Hc Hb Hw Hlen)
    as (s' & full & rest & E & Hp & Hm & Hf & _ & Hcat).
  assert (Hnone : scan_pairs cfg pattern_ids (normalize_embeddings embeddings)
                  = []).
  { destruct (scan_pairs _ _ _) as [|p l] eqn:Es; [reflexivity|].
    assert (Hin : In p (scan_pairs cfg pattern_ids
                          (normalize_embeddings embeddings)))
      by (rewrite Es; now left).
    apply in_scan_pairs in Hin. destruct Hin as (i & j & Hij & Hs & _).
    specialize (Hlow i j Hij). unfold cosine in Hlow. lra. }
  assert (Hout : concat full ++ rest = []).
  { apply Permutation_nil. rewrite Hcat, <- Hnone. apply Permutation_sym.
    apply chunked_pairs_scan; [assumption|].
    now rewrite length_normalize_embeddings. }
  apply app_eq_nil in Hout. destruct Hout as [Hfull ->].
  apply (concat_uniform_nil Hb Hf) in Hfull. subst full.
  exists s'. split; [exact E|]. simpl in Hp, Hm.
  rewrite app_nil_r in Hp, Hm. auto.
Qed.

Lemma nothing_similar_sends_no_post_witness :
  exists s',
    compute_and_store_similarities source_config [10; 12]%Z
      [[1; 0; 0]; [0; 1; 0]]%R (nominal_world no_pages) initial
      = (Returned tt, s') /\
    mutations (trace s') = mutations (trace initial) /\
    posted (trace s') = posted (trace initial).
Proof.
  apply nothing_similar_sends_no_post.
  - simpl. lia.
  - simpl. lia.
  - apply nominal_world_reachable.
  - reflexivity.
  - intros i j Hij. simpl in Hij.
    assert (Hi : i = 0) by lia. assert (Hj : j = 1) by lia. subst i j.
    unfold cosine. rewrite sim_at_normalized by (simpl; lia).
    simpl nth. rewrite orthogonal_unit_rows.
    + simpl. lra.
    + unfold dot. simpl. lra.
Defined.

(** ** Lowering the threshold *)

Lemma scan_pairs_threshold (cfg1 cfg2 : Config) (pattern_ids : list Z)
    (normalized : matrix) (p : Pair) :
  (MIN_SIMILARITY_THRESHOLD cfg1 <= MIN_SIMILARITY_THRESHOLD cfg2)%R ->
  In p (scan_pairs cfg2 pattern_ids normalized) ->
  In p (scan_pairs cfg1 pattern_ids normalized).
Proof.
  intros Hle Hin. apply in_scan_pairs in Hin.
  destruct Hin as (i & j & Hij & Hs & ->).
  apply in_scan_pairs. exists i, j. repeat split; try lia. lra.
Qed.

(** X15. The comment on the threshold holds: a run with a lower threshold
    posts every pair that a run with a higher one posts on the same records,
    whatever the chunk and batch sizes of the two runs. *)
Theorem lower_threshold_stores_more (cfg1 cfg2 : Config) (w : World)
    (pattern_ids : list Z) (embeddings : matrix) (s0 : St) :
  1 <= CHUNK_SIZE cfg1 -> 1 <= INSERT_BATCH_SIZE cfg1 ->
  1 <= CHUNK_SIZE cfg2 -> 1 <= INSERT_BATCH_SIZE cfg2 ->
  store_reachable w ->
  length embeddings = length pattern_ids ->
  (MIN_SIMILARITY_THRESHOLD cfg1 <= MIN_SIMILARITY_THRESHOLD cfg2)%R ->
  exists s1 batches1 s2 batches2,
    compute_and_store_similarities cfg1 pattern_ids embeddings w s0
      = (Returned tt, s1) /\
    posted (trace s1) = posted (trace s0) ++ batches1 /\
    compute_and_store_similarities cfg2 pattern_ids embeddings w s0
      = (Returned tt, s2) /\
    posted (trace s2) = posted (trace s0) ++ batches2 /\
    forall p, In p (concat batches2) -> In p (concat batches1).
Proof.
  intros Hc1 Hb1 Hc2 Hb2 Hw Hlen Hle.
  destruct (@compute_posts_scan cfg1 w pattern_ids embeddings s0
              Hc1 Hb1 Hw Hlen) as (s1 & b1 & E1 & Hp1 & Hperm1).
  destruct (@compute_posts_scan cfg2 w pattern_ids embeddings s0
              Hc2 Hb2 Hw Hlen) as (s2 & b2 & E2 & Hp2 & Hperm2).
  exists s1, b1, s2, b2. repeat split; try assumption.
  intros p Hin.
  apply (Permutation_in _ (Permutation_sym Hperm1)).
  apply (scan_pairs_threshold cfg1 cfg2 _ _ _ Hle).
  now apply (Permutation_in _ Hperm2).
Qed.

Lemma lower_threshold_stores_more_witness :
  exists s1 batches1 s2 batches2,
    compute_and_store_similarities (mkConfig (1 / 2)%R 1000 2 3) scenario_ids
      scenario_embeddings (nominal_world no_pages) initial
      = (Returned tt, s1) /\
    posted (trace s1) = posted (trace initial) ++ batches1 /\
    compute_and_store_similarities source_config scenario_ids
      scenario_embeddings (nominal_world no_pages) initial
      = (Returned tt, s2) /\
    posted (trace s2) = posted (trace initial) ++ batches2 /\
    forall p, In p (concat batches2) -> In p (concat batches1).
Proof.
  apply lower_threshold_stores_more.
  - simpl. lia.
  - simpl. lia.
  - simpl. lia.
  - simpl. lia.
  - apply nominal_world_reachable.
  - reflexivity.
  - simpl. lra.
Defined.
